(** * Execution store repository

    A shallow embedding of [fiftyone/factory/repos/execution_store.py]:
    the context-bound key/value repository [ExecutionStoreRepo] and its
    MongoDB-backed subclass [MongoExecutionStoreRepo], together with the
    part of the document collection they talk to.

    Layout: the document and query language of the backing collection,
    the collection primitives the repository calls, the document models,
    the repository methods, the transition system of a shared collection,
    and then the properties. *)

From stdpp Require Import gmap strings list fin_maps.
From Stdlib Require Import ZArith.

Open Scope Z_scope.

(** ** Values and documents *)

(** The Python/BSON values that travel between the repository and the
    collection: [None], strings, integers, datetimes (a count of seconds)
    and ObjectIds. *)
Inductive Bson : Type :=
  | BNull
  | BStr (s : string)
  | BInt (z : Z)
  | BTime (t : Z)
  | BOid (o : N).

#[global] Instance Bson_eq_dec : EqDecision Bson.
Proof. solve_decision. Defined.

(** A document is a Python dict from field names to values.  The engine's
    own [_id] field is left out: the repository strips it from everything
    it writes and never reads it. *)
Abbreviation Document := (gmap string Bson).

(** Reading a field the way an equality query sees it: a missing field
    and a field holding null are the same. *)
Definition field (f : string) (d : Document) : Bson :=
  default BNull (d !! f).

(** ** Queries

    The two shapes of condition the repository uses: [{f: v}] and
    [{f: {"$ne": v}}]. *)
Inductive Cond : Type :=
  | Is (v : Bson)
  | Ne (v : Bson).

Abbreviation Query := (list (string * Cond)).

Definition cond_holds (d : Document) (fc : string * Cond) : Prop :=
  match fc.2 with
  | Is v => field fc.1 d = v
  | Ne v => field fc.1 d ≠ v
  end.

#[global] Instance cond_holds_dec d fc : Decision (cond_holds d fc).
Proof. unfold cond_holds. destruct (fc.2); apply _. Defined.

Definition matches (q : Query) (d : Document) : Prop :=
  Forall (cond_holds d) q.

#[global] Instance matches_dec q d : Decision (matches q d).
Proof. unfold matches. apply _. Defined.

(** The fields an upsert copies from the query into a fresh document:
    its equality conditions. *)
Fixpoint eq_fields (q : Query) : Document :=
  match q with
  | [] => ∅
  | (f, Is v) :: q' => <[f := v]> (eq_fields q')
  | (_, Ne _) :: q' => eq_fields q'
  end.

(** ** The backing collection *)

(** An index as [create_index] declares it. *)
Record Index : Type := mkIndex {
  ix_name : string;
  ix_keys : list string;
  ix_unique : bool;
  ix_expire_after : option Z
}.

Record Collection : Type := mkCollection {
  documents : list Document;
  indexes : list Index
}.

Definition fresh_collection : Collection := mkCollection [] [].

Definition with_documents (c : Collection) (ds : list Document) : Collection :=
  mkCollection ds (indexes c).

(** What the caller sees when the engine rejects a write, or when Python
    subscripts a dict with a key it does not have. *)
Inductive Error : Type :=
  | DuplicateKeyError
  | WriteError
  | KeyError.

Inductive Result (A : Type) : Type :=
  | Ok (a : A)
  | Raise (e : Error).
Arguments Ok {A} a.
Arguments Raise {A} e.

#[global] Instance Result_ret : MRet Result := λ A a, Ok a.

#[global] Instance Result_bind : MBind Result := λ A B k r,
  match r with
  | Ok a => k a
  | Raise e => Raise e
  end.

(** The tuple of values an index files a document under. *)
Definition index_key (ix : Index) (d : Document) : list Bson :=
  (λ f, field f d) <$> ix_keys ix.

(** [d] cannot be stored next to [others]: some unique index already has
    its key. *)
Definition collides (ixs : list Index) (others : list Document)
    (d : Document) : Prop :=
  Exists (λ ix, ix_unique ix = true
                ∧ Exists (λ d', index_key ix d' = index_key ix d) others) ixs.

#[global] Instance collides_dec ixs others d : Decision (collides ixs others d).
Proof. unfold collides. apply _. Defined.

(** Replacing [old] by [new] in place is refused when [new] moves to a
    key of a unique index that another document holds. *)
Definition update_collides (ixs : list Index) (others : list Document)
    (old new : Document) : Prop :=
  Exists (λ ix, ix_unique ix = true
                ∧ index_key ix new ≠ index_key ix old
                ∧ Exists (λ d', index_key ix d' = index_key ix new) others) ixs.

#[global] Instance update_collides_dec ixs others old new :
  Decision (update_collides ixs others old new).
Proof. unfold update_collides. apply _. Defined.

Module Coll.

(** [insert_one(doc)] *)
Definition insert_one (d : Document) (c : Collection) : Result Collection :=
  if decide (collides (indexes c) (documents c) d)
  then Raise DuplicateKeyError
  else Ok (with_documents c (documents c ++ [d])).

(** [find_one(filter)]: the first match in the collection's order.  A
    projection argument only trims the fields of the answer and always
    keeps [_id], so the answer is truthy exactly when there is one. *)
Definition find_one (q : Query) (c : Collection) : option Document :=
  snd <$> list_find (matches q) (documents c).

(** [find(filter)] *)
Definition find (q : Query) (c : Collection) : list Document :=
  filter (matches q) (documents c).

(** [count_documents(filter)] *)
Definition count_documents (q : Query) (c : Collection) : Z :=
  Z.of_nat (length (filter (matches q) (documents c))).

(** [delete_one(filter)]: [deleted_count] and the collection left. *)
Definition delete_one (q : Query) (c : Collection) : Z * Collection :=
  match list_find (matches q) (documents c) with
  | Some (i, _) => (1, with_documents c (delete i (documents c)))
  | None => (0, c)
  end.

(** [delete_many(filter)] *)
Definition delete_many (q : Query) (c : Collection) : Z * Collection :=
  (Z.of_nat (length (filter (matches q) (documents c))),
   with_documents c (filter (λ d, ¬ matches q d) (documents c))).

(** The update documents the repository sends: a [$set] group and a
    [$setOnInsert] group. *)
Record Update : Type := mkUpdate {
  set_fields : Document;
  set_on_insert : Document
}.

Record UpdateResult : Type := mkUpdateResult {
  matched_count : Z;
  modified_count : Z;
  upserted_id : bool
}.

(** [update_one(filter, update, upsert)].  An update naming one field in
    both groups is rejected.  Otherwise the first match gets the [$set]
    group; it counts as modified only when that changes it.  Without a
    match and with [upsert], a document made of the query's equality
    fields and both groups is inserted. *)
Definition update_one (q : Query) (u : Update) (upsert : bool)
    (c : Collection) : Result (UpdateResult * Collection) :=
  if decide (set_fields u ∩ set_on_insert u = ∅) then
    match list_find (matches q) (documents c) with
    | Some (i, d) =>
        let d' := set_fields u ∪ d in
        if decide (update_collides (indexes c) (delete i (documents c)) d d')
        then Raise DuplicateKeyError
        else Ok (mkUpdateResult 1 (if decide (d' = d) then 0 else 1) false,
                 with_documents c (<[i := d']> (documents c)))
    | None =>
        if upsert then
          let d' := set_on_insert u ∪ (set_fields u ∪ eq_fields q) in
          if decide (collides (indexes c) (documents c) d')
          then Raise DuplicateKeyError
          else Ok (mkUpdateResult 0 0 true,
                   with_documents c (documents c ++ [d']))
        else Ok (mkUpdateResult 0 0 false, c)
    end
  else Raise WriteError.

(** [list_indexes()], as the names the repository looks at. *)
Definition list_indexes (c : Collection) : list string :=
  ix_name <$> indexes c.

(** [create_index(keys, name, unique, expireAfterSeconds)]: building a
    unique index over documents that already share a key fails. *)
Definition create_index (ix : Index) (c : Collection) : Result Collection :=
  if decide (ix_unique ix = true ∧ ¬ NoDup (index_key ix <$> documents c))
  then Raise DuplicateKeyError
  else Ok (mkCollection (documents c) (indexes c ++ [ix])).

(** The engine's background sweep at time [now]: under a TTL index on
    field [f], a document whose [f] is a date at least
    [expireAfterSeconds] in the past is removed. *)
Definition expired (ixs : list Index) (now : Z) (d : Document) : Prop :=
  Exists (λ ix, match ix_expire_after ix, ix_keys ix with
                | Some s, [f] =>
                    match d !! f with
                    | Some (BTime t) => t + s <= now
                    | _ => False
                    end
                | _, _ => False
                end) ixs.

#[global] Instance expired_dec ixs now d : Decision (expired ixs now d).
Proof.
  unfold expired. apply Exists_dec. intros ix.
  destruct (ix_expire_after ix); [| apply _].
  destruct (ix_keys ix) as [|f [|? ?]]; try apply _.
  destruct (d !! f) as [[]|]; apply _.
Defined.

Definition sweep (now : Z) (c : Collection) : Collection :=
  with_documents c (filter (λ d, ¬ expired (indexes c) now d) (documents c)).

End Coll.

(** ** Document models *)

Definition SENTINEL : string := "__store__".

(** An owner identifier as the repository holds it ([None] is the global
    context) and as it is written into documents and queries. *)
Definition oid (dataset_id : option N) : Bson :=
  match dataset_id with
  | Some o => BOid o
  | None => BNull
  end.

(** Modelled from the spec: [KeyDocument] of [fiftyone.operators.store.models],
    which is not among the sources.  Its fields are the attributes the data
    model gives a key entry; a field that was not passed is [None]. *)
Module KeyDocument.

Record t : Type := mk {
  store_name : Bson;
  key : Bson;
  value : Bson;
  created_at : Bson;
  updated_at : Bson;
  expires_at : Bson;
  dataset_id : Bson
}.

(** Attribute assignment, [key_doc.created_at = v] and
    [key_doc.updated_at = v]. *)
Definition set_created_at (v : Bson) (k : t) : t :=
  mk (store_name k) (key k) (value k) v (updated_at k) (expires_at k)
     (dataset_id k).

Definition set_updated_at (v : Bson) (k : t) : t :=
  mk (store_name k) (key k) (value k) (created_at k) v (expires_at k)
     (dataset_id k).

(** Modelled from the spec: [to_mongo_dict], one entry per attribute. *)
Definition to_mongo_dict (k : t) : Document :=
  list_to_map
    [ ("store_name", store_name k); ("key", key k); ("value", value k);
      ("created_at", created_at k); ("updated_at", updated_at k);
      ("expires_at", expires_at k); ("dataset_id", dataset_id k) ].

(** Modelled from the spec: the constructor applied to a raw document,
    reading each attribute from it. *)
Definition of_raw (d : Document) : t :=
  mk (field "store_name" d) (field "key" d) (field "value" d)
     (field "created_at" d) (field "updated_at" d) (field "expires_at" d)
     (field "dataset_id" d).

(** Modelled from the spec: [get_expiration]; the expiration is
    [now + ttl] when a ttl is provided and positive, else null. *)
Definition get_expiration (now : Z) (ttl : option Z) : Bson :=
  match ttl with
  | Some s => if decide (0 < s) then BTime (now + s) else BNull
  | None => BNull
  end.

End KeyDocument.

(** Modelled from the spec: [StoreDocument] of the same module, the
    marker of a store: a store name, an owner and the reserved key. *)
Module StoreDocument.

Record t : Type := mk {
  store_name : string;
  dataset_id : option N
}.

Definition key (_ : t) : string := SENTINEL.

(** Modelled from the spec: [to_mongo_dict]. *)
Definition to_mongo_dict (s : t) : Document :=
  list_to_map
    [ ("store_name", BStr (store_name s)); ("key", BStr (key s));
      ("dataset_id", oid (dataset_id s)) ].

End StoreDocument.

(** Python truthiness of an optional number of seconds ([if ttl]). *)
Definition truthy (ttl : option Z) : bool :=
  match ttl with
  | Some t => bool_decide (t ≠ 0)
  | None => false
  end.

(** [d[f]] *)
Definition subscript (f : string) (d : Document) : Result Bson :=
  match d !! f with
  | Some v => Ok v
  | None => Raise KeyError
  end.

(** [[d[f] for d in result]] *)
Fixpoint subscript_all (f : string) (result : list Document)
    : Result (list Bson) :=
  match result with
  | [] => Ok []
  | d :: rest =>
      v ← subscript f d;
      vs ← subscript_all f rest;
      mret (v :: vs)
  end.

(** ** The repository *)

(** An instance is its bound context; the collection it holds a handle to
    is shared with every other instance, so each method takes the
    collection's state and, when it writes, returns the new one.  The
    clock reading of a method that asks for the time is its [now]. *)
Record ExecutionStoreRepo : Type := mkRepo {
  _dataset_id : option N
}.

Definition excluded_from_set : list string :=
  ["_id"; "created_at"; "expires_at"; "store_name"; "key"; "dataset_id"].

Section Methods.

Variable self : ExecutionStoreRepo.

Definition create_store (store_name : string) (c : Collection)
    : Result (StoreDocument.t * Collection) :=
  let store_doc := StoreDocument.mk store_name (_dataset_id self) in
  c' ← Coll.insert_one (StoreDocument.to_mongo_dict store_doc) c;
  mret (store_doc, c').

Definition has_store (store_name : string) (c : Collection) : bool :=
  let result :=
    Coll.find_one
      [ ("store_name", Is (BStr store_name));
        ("key", Is (BStr "__store__"));
        ("dataset_id", Is (oid (_dataset_id self))) ] c in
  bool_decide (is_Some result).

Definition list_stores (c : Collection) : Result (list Bson) :=
  let result :=
    Coll.find
      [ ("key", Is (BStr "__store__"));
        ("dataset_id", Is (oid (_dataset_id self))) ] c in
  subscript_all "store_name" result.

Definition count_stores (c : Collection) : Z :=
  Coll.count_documents
    [ ("key", Is (BStr "__store__"));
      ("dataset_id", Is (oid (_dataset_id self))) ] c.

Definition delete_store (store_name : string) (c : Collection)
    : Z * Collection :=
  Coll.delete_many
    [ ("store_name", Is (BStr store_name));
      ("dataset_id", Is (oid (_dataset_id self))) ] c.

Definition set_key (store_name key : string) (value : Bson)
    (ttl : option Z) (now : Z) (c : Collection)
    : Result (KeyDocument.t * Collection) :=
  let expiration := KeyDocument.get_expiration now ttl in
  let key_doc :=
    KeyDocument.mk (BStr store_name) (BStr key) value BNull (BTime now)
      expiration (oid (_dataset_id self)) in
  let on_insert_fields : Document :=
    list_to_map
      [ ("store_name", BStr store_name); ("key", BStr key);
        ("created_at", BTime now);
        ("expires_at", if truthy ttl then expiration else BNull);
        ("dataset_id", oid (_dataset_id self)) ] in
  let on_insert_fields :=
    if decide (_dataset_id self = None)
    then delete "dataset_id" on_insert_fields
    else on_insert_fields in
  let update_fields :=
    Coll.mkUpdate
      (filter (λ kv : string * Bson, kv.1 ∉ excluded_from_set)
         (KeyDocument.to_mongo_dict key_doc))
      on_insert_fields in
  '(result, c') ←
    Coll.update_one
      [ ("store_name", Is (BStr store_name)); ("key", Is (BStr key));
        ("dataset_id", Is (oid (_dataset_id self))) ]
      update_fields true c;
  let key_doc :=
    if Coll.upserted_id result
    then KeyDocument.set_created_at (BTime now) key_doc
    else KeyDocument.set_updated_at (BTime now) key_doc in
  mret (key_doc, c').

Definition get_key (store_name key : string) (c : Collection)
    : option KeyDocument.t :=
  let raw_key_doc :=
    Coll.find_one
      [ ("store_name", Is (BStr store_name)); ("key", Is (BStr key));
        ("dataset_id", Is (oid (_dataset_id self))) ] c in
  KeyDocument.of_raw <$> raw_key_doc.

Definition update_ttl (store_name key : string) (ttl : option Z)
    (now : Z) (c : Collection) : Result (bool * Collection) :=
  let expiration := KeyDocument.get_expiration now ttl in
  '(result, c') ←
    Coll.update_one
      [ ("store_name", Is (BStr store_name)); ("key", Is (BStr key));
        ("dataset_id", Is (oid (_dataset_id self))) ]
      (Coll.mkUpdate {[ "expires_at" := expiration ]} ∅) false c;
  mret (bool_decide (Coll.modified_count result > 0), c').

Definition delete_key (store_name key : string) (c : Collection)
    : bool * Collection :=
  let '(deleted_count, c') :=
    Coll.delete_one
      [ ("store_name", Is (BStr store_name)); ("key", Is (BStr key));
        ("dataset_id", Is (oid (_dataset_id self))) ] c in
  (bool_decide (deleted_count > 0), c').

Definition list_keys (store_name : string) (c : Collection)
    : Result (list Bson) :=
  let result :=
    Coll.find
      [ ("store_name", Is (BStr store_name));
        ("key", Ne (BStr "__store__"));
        ("dataset_id", Is (oid (_dataset_id self))) ] c in
  subscript_all "key" result.

Definition count_keys (store_name : string) (c : Collection) : Z :=
  Coll.count_documents
    [ ("store_name", Is (BStr store_name));
      ("key", Ne (BStr "__store__"));
      ("dataset_id", Is (oid (_dataset_id self))) ] c.

Definition cleanup (c : Collection) : Z * Collection :=
  Coll.delete_many [ ("dataset_id", Is (oid (_dataset_id self))) ] c.

End Methods.

(** The global variants take the instance like every method, and use
    nothing of it but the collection handle. *)
Definition has_store_global (self : ExecutionStoreRepo) (store_name : string)
    (c : Collection) : bool :=
  let result :=
    Coll.find_one
      [ ("store_name", Is (BStr store_name));
        ("key", Is (BStr "__store__")) ] c in
  bool_decide (is_Some result).

Definition list_stores_global (self : ExecutionStoreRepo) (c : Collection)
    : Result (list Bson) :=
  let result := Coll.find [ ("key", Is (BStr "__store__")) ] c in
  subscript_all "store_name" result.

Definition count_stores_global (self : ExecutionStoreRepo) (c : Collection)
    : Z :=
  Coll.count_documents [ ("key", Is (BStr "__store__")) ] c.

(** ** The MongoDB repository *)

Module MongoExecutionStoreRepo.

Definition expires_at_name : string := "expires_at".
Definition store_name_name : string := "store_name".
Definition key_name : string := "key".
Definition full_key_name : string := "unique_store_index".
Definition dataset_id_name : string := "dataset_id".

Definition ttl_index : Index :=
  mkIndex expires_at_name [expires_at_name] false (Some 0).

Definition full_key_index : Index :=
  mkIndex full_key_name [store_name_name; key_name; dataset_id_name]
    true None.

Definition plain_index (name : string) : Index :=
  mkIndex name [name] false None.

(** The closing loop of [_create_indexes]. *)
Fixpoint create_missing (indices names : list string) (c : Collection)
    : Result Collection :=
  match names with
  | [] => Ok c
  | name :: rest =>
      c' ← (if decide (name ∉ indices)
            then Coll.create_index (plain_index name) c
            else Ok c);
      create_missing indices rest c'
  end.

Definition _create_indexes (c : Collection) : Result Collection :=
  let indices := Coll.list_indexes c in
  c1 ← (if decide (expires_at_name ∉ indices)
        then Coll.create_index ttl_index c
        else Ok c);
  c2 ← (if decide (full_key_name ∉ indices)
        then Coll.create_index full_key_index c1
        else Ok c1);
  create_missing indices [store_name_name; key_name; dataset_id_name] c2.

(** [__init__]: the instance, and the collection with its indexes. *)
Definition init (dataset_id : option N) (c : Collection)
    : Result (ExecutionStoreRepo * Collection) :=
  c' ← _create_indexes c;
  mret (mkRepo dataset_id, c').

End MongoExecutionStoreRepo.

(** ** A shared collection over time *)

(** The calls that can change the collection.  The remaining methods only
    read it. *)
Inductive Call : Type :=
  | CreateStore (store_name : string)
  | DeleteStore (store_name : string)
  | SetKey (store_name key : string) (value : Bson) (ttl : option Z)
  | UpdateTtl (store_name key : string) (ttl : option Z)
  | DeleteKey (store_name key : string)
  | Cleanup
  | NewMongoRepo
  | Sweep.

(** One event: a call, the instance it is made on (for [NewMongoRepo] the
    context of the new instance; unused by [Sweep], the engine's own
    expiry) and the time it happens. *)
Record Event : Type := mkEvent {
  on : ExecutionStoreRepo;
  at_time : Z;
  call : Call
}.

Definition state_of {A} (c : Collection) (r : Result (A * Collection))
    : Collection :=
  match r with
  | Ok (_, c') => c'
  | Raise _ => c
  end.

(** The collection after an event; a call that raises leaves it as it
    was. *)
Definition perform (c : Collection) (e : Event) : Collection :=
  let self := on e in
  let now := at_time e in
  match call e with
  | CreateStore s => state_of c (create_store self s c)
  | DeleteStore s => (delete_store self s c).2
  | SetKey s k v ttl => state_of c (set_key self s k v ttl now c)
  | UpdateTtl s k ttl => state_of c (update_ttl self s k ttl now c)
  | DeleteKey s k => (delete_key self s k c).2
  | Cleanup => (cleanup self c).2
  | NewMongoRepo =>
      state_of c (MongoExecutionStoreRepo.init (_dataset_id self) c)
  | Sweep => Coll.sweep now c
  end.

Definition run (c : Collection) (trace : list Event) : Collection :=
  foldl perform c trace.

(** The collection behind a first [MongoExecutionStoreRepo] built on a
    fresh collection. *)
Definition mongo_collection : Collection :=
  perform fresh_collection (mkEvent (mkRepo None) 0 NewMongoRepo).

(** The uniqueness constraint: no two documents share store name, key and
    owner. *)
Definition triple (d : Document) : list Bson :=
  [field "store_name" d; field "key" d; field "dataset_id" d].

Definition unique_triples (c : Collection) : Prop :=
  NoDup (triple <$> documents c).

(** A trace that never writes through [set_key] under the reserved key. *)
Definition spares_sentinel (e : Event) : Prop :=
  match call e with
  | SetKey _ k _ _ => k ≠ SENTINEL
  | _ => True
  end.

#[global] Instance spares_sentinel_dec e : Decision (spares_sentinel e).
Proof. unfold spares_sentinel. destruct (call e); apply _. Defined.

(** ** Vocabulary of the statements *)

(** The query every single-key method sends. *)
Definition key_query (self : ExecutionStoreRepo) (store_name key : string)
    : Query :=
  [ ("store_name", Is (BStr store_name)); ("key", Is (BStr key));
    ("dataset_id", Is (oid (_dataset_id self))) ].

(** The query of [list_keys] and [count_keys]. *)
Definition keys_query (self : ExecutionStoreRepo) (store_name : string)
    : Query :=
  [ ("store_name", Is (BStr store_name)); ("key", Ne (BStr "__store__"));
    ("dataset_id", Is (oid (_dataset_id self))) ].

(** The query of [count_stores]. *)
Definition stores_query (self : ExecutionStoreRepo) : Query :=
  [ ("key", Is (BStr "__store__"));
    ("dataset_id", Is (oid (_dataset_id self))) ].

(** The document currently stored under a store, key and owner. *)
Definition stored (self : ExecutionStoreRepo) (store_name key : string)
    (c : Collection) : option Document :=
  Coll.find_one (key_query self store_name key) c.

(** What [set_key] writes over an existing document. *)
Definition written (value : Bson) (now : Z) : Document :=
  <["value" := value]> (<["updated_at" := BTime now]> ∅).

(** The collection carries no uniqueness constraint but the one the
    repository declares, on store name, key and owner. *)
Definition own_constraints (c : Collection) : Prop :=
  Forall (λ ix, ix_unique ix = true →
                ix_keys ix = ["store_name"; "key"; "dataset_id"]) (indexes c).

#[global] Instance own_constraints_dec c : Decision (own_constraints c).
Proof. unfold own_constraints. apply _. Defined.

(** The collection enforces the repository's uniqueness constraint. *)
Definition enforces_unique (c : Collection) : Prop :=
  Exists (λ ix, ix_unique ix = true
                ∧ ix_keys ix = ["store_name"; "key"; "dataset_id"]) (indexes c).

#[global] Instance enforces_unique_dec c : Decision (enforces_unique c).
Proof. unfold enforces_unique. apply _. Defined.

(** The owner of a document lies in the context of [self]. *)
Definition in_context (self : ExecutionStoreRepo) (d : Document) : Prop :=
  field "dataset_id" d = oid (_dataset_id self).

#[global] Instance in_context_dec self d : Decision (in_context self d).
Proof. unfold in_context. apply _. Defined.

(** The document an upserting [set_key] creates. *)
Definition inserted (self : ExecutionStoreRepo) (store_name key : string)
    (value : Bson) (ttl : option Z) (now : Z) : Document :=
  list_to_map
    [ ("store_name", BStr store_name); ("key", BStr key);
      ("dataset_id", oid (_dataset_id self)); ("value", value);
      ("created_at", BTime now); ("updated_at", BTime now);
      ("expires_at",
        if truthy ttl then KeyDocument.get_expiration now ttl else BNull) ].

(** The [$setOnInsert] group of [set_key], for an expiration [e]. *)
Definition on_insert_fields (self : ExecutionStoreRepo)
    (store_name key : string) (e : Bson) (now : Z) : Document :=
  let m : Document :=
    list_to_map
      [ ("store_name", BStr store_name); ("key", BStr key);
        ("created_at", BTime now); ("expires_at", e);
        ("dataset_id", oid (_dataset_id self)) ] in
  if decide (_dataset_id self = None) then delete "dataset_id" m else m.

(** Two dataset contexts and the global one, for the worked examples. *)
Definition ds1 : ExecutionStoreRepo := mkRepo (Some 1%N).
Definition ds2 : ExecutionStoreRepo := mkRepo (Some 2%N).
Definition global : ExecutionStoreRepo := mkRepo None.

Definition is_Ok {A} (r : Result A) : bool :=
  match r with
  | Ok _ => true
  | Raise _ => false
  end.

(** The collection of a Mongo repository holding one entry, written
    without and with a ttl at time 10. *)
Definition with_k1 : Collection :=
  run mongo_collection [mkEvent ds1 10 (SetKey "A" "k1" (BInt 1) None)].

Definition with_k1_ttl : Collection :=
  run mongo_collection [mkEvent ds1 10 (SetKey "A" "k1" (BInt 1) (Some 60))].

(** The document of a store marker. *)
Definition marker (self : ExecutionStoreRepo) (store_name : string)
    : Document :=
  StoreDocument.to_mongo_dict
    (StoreDocument.mk store_name (_dataset_id self)).

(** Store "A" created in [ds1], behind a Mongo repository and behind a
    base repository on a collection without indexes. *)
Definition with_store_A : Collection :=
  run mongo_collection [mkEvent ds1 10 (CreateStore "A")].

Definition unindexed_store_A : Collection :=
  run fresh_collection [mkEvent ds1 10 (CreateStore "A")].

(** What one event can do to the documents of a collection: remove some
    of them (or nothing at all), append a store marker, overwrite or
    insert a key document, or rewrite one expiration. *)
Inductive effect (c : Collection) : Event → list Document → Prop :=
  | eff_removed e l :
      l `sublist_of` documents c →
      effect c e l
  | eff_marker self now s :
      (enforces_unique c →
       triple (marker self s) ∉ triple <$> documents c) →
      effect c (mkEvent self now (CreateStore s))
        (documents c ++ [marker self s])
  | eff_overwrite self now s k v ttl i d :
      list_find (matches (key_query self s k)) (documents c) = Some (i, d) →
      effect c (mkEvent self now (SetKey s k v ttl))
        (<[i := written v now ∪ d]> (documents c))
  | eff_insert self now s k v ttl :
      list_find (matches (key_query self s k)) (documents c) = None →
      effect c (mkEvent self now (SetKey s k v ttl))
        (documents c ++ [inserted self s k v ttl now])
  | eff_expiry self now s k ttl i d :
      list_find (matches (key_query self s k)) (documents c) = Some (i, d) →
      effect c (mkEvent self now (UpdateTtl s k ttl))
        (<[i := <["expires_at" := KeyDocument.get_expiration now ttl]> d]>
           (documents c)).

(** An index that adds no constraint of its own. *)
Definition harmless (ix : Index) : Prop :=
  ix_unique ix = true → ix_keys ix = ["store_name"; "key"; "dataset_id"].

(** The triples of the documents that are not store markers. *)
Definition user_triples (l : list Document) : list (list Bson) :=
  filter (λ t, t !! 1%nat ≠ Some (BStr SENTINEL)) (triple <$> l).

(** Every document has a key, and it is a string. *)
Definition keyed (d : Document) : Prop :=
  ∃ k : string, d !! "key" = Some (BStr k).

(** A document under the reserved key holds no value. *)
Definition marker_like (d : Document) : Prop :=
  field "key" d = BStr SENTINEL → field "value" d = BNull.

(** A collection that only gained harmless indexes. *)
Definition grown (c c' : Collection) : Prop :=
  documents c' = documents c
  ∧ ∃ more, indexes c' = indexes c ++ more ∧ Forall harmless more.

#[global] Instance marker_like_dec d : Decision (marker_like d).
Proof. unfold marker_like. apply _. Defined.

(** Store "A" of [ds1] after a [set_key] under the reserved key. *)
Definition sentinel_written : Collection :=
  run with_store_A
    [mkEvent ds1 11 (SetKey "A" "__store__" (BInt 7) None)].

(** A trace over two contexts that touches every writing method. *)
Definition busy_trace : list Event :=
  [ mkEvent ds1 10 (CreateStore "A");
    mkEvent ds1 11 (SetKey "A" "k1" (BInt 1) None);
    mkEvent ds1 12 (SetKey "A" "k1" (BInt 2) (Some 5));
    mkEvent global 13 (SetKey "A" "k1" (BInt 7) (Some 5));
    mkEvent ds1 14 (CreateStore "A");
    mkEvent ds2 15 (SetKey "A" "k2" (BInt 3) None);
    mkEvent ds1 16 (UpdateTtl "A" "k1" (Some 60));
    mkEvent ds2 17 NewMongoRepo;
    mkEvent global 18 Sweep;
    mkEvent ds2 19 (DeleteKey "A" "k2");
    mkEvent ds1 20 (SetKey "A" "k3" (BInt 4) None) ].

(** Store "A" of [ds1] with one key in it. *)
Definition with_k1_store : Collection :=
  run mongo_collection
    [ mkEvent ds1 10 (CreateStore "A");
      mkEvent ds1 11 (SetKey "A" "k1" (BInt 1) None) ].

(** The query of [delete_store], and the documents it selects: the marker
    and the entries of one store in one context. *)
Definition store_query (self : ExecutionStoreRepo) (store_name : string)
    : Query :=
  [ ("store_name", Is (BStr store_name));
    ("dataset_id", Is (oid (_dataset_id self))) ].

Definition in_store (self : ExecutionStoreRepo) (store_name : string)
    (d : Document) : Prop :=
  field "store_name" d = BStr store_name ∧ in_context self d.

#[global] Instance in_store_dec self s d : Decision (in_store self s d).
Proof. unfold in_store. apply _. Defined.

(** The query of [list_stores_global] and [count_stores_global]. *)
Definition global_stores_query : Query := [ ("key", Is (BStr "__store__")) ].

(** Every document has a store name, and it is a string. *)
Definition named (d : Document) : Prop :=
  ∃ n : string, d !! "store_name" = Some (BStr n).

(** The names [_create_indexes] looks for. *)
Definition declared_names : list string :=
  [ MongoExecutionStoreRepo.expires_at_name;
    MongoExecutionStoreRepo.full_key_name;
    MongoExecutionStoreRepo.store_name_name;
    MongoExecutionStoreRepo.key_name;
    MongoExecutionStoreRepo.dataset_id_name ].

(** A collection without indexes that already holds the marker of store
    "A" of [ds1] twice. *)
Definition twice_store_A : Collection :=
  run fresh_collection
    [mkEvent ds1 10 (CreateStore "A"); mkEvent ds1 11 (CreateStore "A")].

(** * Properties *)

(** ** Documents and queries *)

Lemma groups_disjoint self s k v e now :
  written v now ∩ on_insert_fields self s k e now = ∅.
Proof. destruct self as [[o|]]; vm_compute; reflexivity. Qed.

Lemma set_group_written s k v e' now ds :
  filter (λ kv : string * Bson, kv.1 ∉ excluded_from_set)
     (KeyDocument.to_mongo_dict (KeyDocument.mk (BStr s) (BStr k) v BNull (BTime now) e' ds))
  = written v now.
Proof. vm_compute; reflexivity. Qed.

Lemma upsert_doc self s k v ttl now :
  on_insert_fields self s k (if truthy ttl then KeyDocument.get_expiration now ttl else BNull) now
   ∪ (written v now ∪ eq_fields (key_query self s k))
  = inserted self s k v ttl now.
Proof.
  unfold inserted.
  generalize (if truthy ttl then KeyDocument.get_expiration now ttl else BNull). intros e.
  destruct self as [[o|]]; vm_compute; reflexivity.
Qed.

Lemma field_union_None (m d : Document) f :
  m !! f = None → field f (m ∪ d) = field f d.
Proof. intros H. unfold field. by rewrite lookup_union_r. Qed.

Lemma field_union_Some (m d : Document) f x :
  m !! f = Some x → field f (m ∪ d) = x.
Proof. intros H. unfold field. by rewrite (lookup_union_Some_l _ _ _ x). Qed.

Lemma matches_key_query self s k d :
  matches (key_query self s k) d ↔ triple d = [BStr s; BStr k; oid (_dataset_id self)].
Proof.
  unfold matches, key_query, triple.
  rewrite !Forall_cons, Forall_nil. unfold cond_holds; simpl.
  split; [intros (-> & -> & -> & _); done | intros [= -> -> ->]; done].
Qed.

Lemma triple_written v now d : triple (written v now ∪ d) = triple d.
Proof. unfold triple. by rewrite !field_union_None. Qed.

Lemma index_key_triple ix d :
  ix_keys ix = ["store_name"; "key"; "dataset_id"] → index_key ix d = triple d.
Proof. intros H. unfold index_key. by rewrite H. Qed.

Lemma triple_inserted self s k v ttl now :
  triple (inserted self s k v ttl now) = [BStr s; BStr k; oid (_dataset_id self)].
Proof.
  unfold inserted.
  generalize (if truthy ttl then KeyDocument.get_expiration now ttl else BNull). intros e.
  vm_compute. reflexivity.
Qed.

(** An in-place write that keeps the triple of a document never trips the
    repository's constraint. *)
Lemma update_keeps_triple c others d d' :
  own_constraints c → triple d' = triple d →
  ¬ update_collides (indexes c) others d d'.
Proof.
  intros Hown Ht. unfold update_collides. rewrite Exists_exists.
  intros (ix & Hix & Hu & Hne & _).
  unfold own_constraints in Hown. rewrite Forall_forall in Hown.
  specialize (Hown ix Hix Hu).
  by rewrite !(index_key_triple ix) in Hne.
Qed.

(** A fresh document whose triple no stored document has passes it. *)
Lemma fresh_triple_passes c d :
  own_constraints c → triple d ∉ triple <$> documents c →
  ¬ collides (indexes c) (documents c) d.
Proof.
  intros Hown Hfresh. unfold collides. rewrite Exists_exists.
  intros (ix & Hix & Hu & Hex).
  unfold own_constraints in Hown. rewrite Forall_forall in Hown.
  specialize (Hown ix Hix Hu).
  apply Exists_exists in Hex as (d' & Hd' & Heq).
  rewrite !(index_key_triple ix) in Heq by done.
  apply Hfresh. rewrite <- Heq. by apply list_elem_of_fmap_2.
Qed.

Lemma find_None_fresh self s k c :
  list_find (matches (key_query self s k)) (documents c) = None →
  [BStr s; BStr k; oid (_dataset_id self)] ∉ triple <$> documents c.
Proof.
  intros Hnone Hin. apply list_elem_of_fmap in Hin as (d & Heq & Hd).
  rewrite list_find_None, Forall_forall in Hnone.
  apply (Hnone d Hd). by apply matches_key_query.
Qed.

Lemma set_key_unfold self s k v ttl now c :
  own_constraints c →
  set_key self s k v ttl now c =
    match list_find (matches (key_query self s k)) (documents c) with
    | Some (i, d) =>
        Ok (KeyDocument.mk (BStr s) (BStr k) v BNull (BTime now)
              (KeyDocument.get_expiration now ttl) (oid (_dataset_id self)),
            with_documents c (<[i := written v now ∪ d]> (documents c)))
    | None =>
        Ok (KeyDocument.mk (BStr s) (BStr k) v (BTime now) (BTime now)
              (KeyDocument.get_expiration now ttl) (oid (_dataset_id self)),
            with_documents c (documents c ++ [inserted self s k v ttl now]))
    end.
Proof.
  intros Hown. unfold set_key, Coll.update_one. cbv zeta.
  rewrite set_group_written. cbn [Coll.set_fields Coll.set_on_insert].
  fold (key_query self s k).
  change (if decide (_dataset_id self = None) then _ else _)
    with (on_insert_fields self s k
            (if truthy ttl then KeyDocument.get_expiration now ttl else BNull) now).
  rewrite decide_True by apply groups_disjoint.
  destruct (list_find _ _) as [[i d]|] eqn:Hfind.
  - rewrite decide_False by (apply update_keeps_triple; [done | apply triple_written]).
    reflexivity.
  - rewrite upsert_doc.
    rewrite decide_False.
    + reflexivity.
    + apply fresh_triple_passes; [done|]. rewrite triple_inserted.
      by apply find_None_fresh.
Qed.

(** ** Finding what was written *)

Lemma find_after_replace (q : Query) (l : list Document) i d d' :
  list_find (matches q) l = Some (i, d) → matches q d' →
  list_find (matches q) (<[i := d']> l) = Some (i, d').
Proof.
  intros Hfind Hd'. apply list_find_Some in Hfind as (Hi & _ & Hbefore).
  apply list_find_Some. split_and!.
  - apply list_lookup_insert_eq. by eapply lookup_lt_Some.
  - done.
  - intros j y Hj Hlt. apply (Hbefore j y); [|done].
    rewrite list_lookup_insert_ne in Hj; [done | lia].
Qed.

Lemma find_after_append (q : Query) (l : list Document) d' :
  list_find (matches q) l = None → matches q d' →
  list_find (matches q) (l ++ [d']) = Some (length l, d').
Proof.
  intros Hnone Hd'. rewrite list_find_app_r by done.
  simpl. rewrite decide_True by done. simpl. do 2 f_equal; lia.
Qed.

Lemma matches_written self s k v now d :
  matches (key_query self s k) d → matches (key_query self s k) (written v now ∪ d).
Proof. rewrite !matches_key_query, triple_written. done. Qed.

Lemma matches_inserted self s k v ttl now :
  matches (key_query self s k) (inserted self s k v ttl now).
Proof. rewrite matches_key_query. apply triple_inserted. Qed.

(** What is stored under a key once [set_key] has returned. *)
Lemma stored_after_set_key self s k v ttl now c :
  own_constraints c →
  ∃ e c', set_key self s k v ttl now c = Ok (e, c')
    ∧ indexes c' = indexes c
    ∧ stored self s k c' =
        Some (match stored self s k c with
              | Some d => written v now ∪ d
              | None => inserted self s k v ttl now
              end).
Proof.
  intros Hown. rewrite set_key_unfold by done.
  unfold stored, Coll.find_one.
  destruct (list_find _ (documents c)) as [[i d]|] eqn:Hfind; simpl.
  - eexists _, _. split_and!; [done..|]. simpl.
    erewrite find_after_replace; [done..|].
    apply matches_written. by apply list_find_Some in Hfind as (_ & ? & _).
  - eexists _, _. split_and!; [done..|]. simpl.
    rewrite find_after_append; [done..|]. apply matches_inserted.
Qed.

Lemma own_constraints_indexes c c' :
  indexes c' = indexes c → own_constraints c → own_constraints c'.
Proof. unfold own_constraints. by intros ->. Qed.

Lemma get_key_stored self s k c :
  get_key self s k c = KeyDocument.of_raw <$> stored self s k c.
Proof. reflexivity. Qed.

Lemma mongo_collection_own : own_constraints mongo_collection.
Proof. apply (bool_decide_unpack _). vm_compute. exact I. Qed.

Lemma fresh_collection_own : own_constraints fresh_collection.
Proof. apply (bool_decide_unpack _). vm_compute. exact I. Qed.

(** C1: two [set_key] calls on one store, key and context, then [get_key]:
    both writes succeed, the entry read back carries the second value, the
    [created_at] it had after the first call (the time of the first call
    when that call created it), and the time of the second call as
    [updated_at]. *)
Theorem set_key_twice_then_get self s k v1 v2 ttl1 ttl2 now1 now2 c :
  own_constraints c →
  ∃ e1 c1 e2 c2 g1 g2,
    set_key self s k v1 ttl1 now1 c = Ok (e1, c1)
    ∧ set_key self s k v2 ttl2 now2 c1 = Ok (e2, c2)
    ∧ get_key self s k c1 = Some g1
    ∧ get_key self s k c2 = Some g2
    ∧ KeyDocument.value g2 = v2
    ∧ KeyDocument.created_at g2 = KeyDocument.created_at g1
    ∧ KeyDocument.updated_at g2 = BTime now2
    ∧ (get_key self s k c = None → KeyDocument.created_at g1 = BTime now1).
Proof.
  intros Hown.
  destruct (stored_after_set_key self s k v1 ttl1 now1 c Hown)
    as (e1 & c1 & H1 & Hix1 & Hs1).
  destruct (stored_after_set_key self s k v2 ttl2 now2 c1
              (own_constraints_indexes _ _ Hix1 Hown))
    as (e2 & c2 & H2 & Hix2 & Hs2).
  rewrite Hs1 in Hs2.
  remember (match stored self s k c with
            | Some d => written v1 now1 ∪ d
            | None => inserted self s k v1 ttl1 now1
            end) as d1 eqn:Hd1.
  exists e1, c1, e2, c2, (KeyDocument.of_raw d1),
    (KeyDocument.of_raw (written v2 now2 ∪ d1)).
  rewrite !get_key_stored, Hs1, Hs2.
  split; [exact H1|]. split; [exact H2|].
  split; [reflexivity|]. split; [reflexivity|].
  unfold KeyDocument.of_raw; cbn [KeyDocument.value KeyDocument.created_at
                                   KeyDocument.updated_at].
  split; [by apply field_union_Some|].
  split; [by rewrite field_union_None|].
  split; [by apply field_union_Some|].
  destruct (stored self s k c); [discriminate|]. intros _. subst d1.
  unfold inserted.
  generalize (if truthy ttl1 then KeyDocument.get_expiration now1 ttl1
              else BNull).
  intros e. vm_compute. reflexivity.
Qed.

Lemma set_key_twice_then_get_witness :
  own_constraints mongo_collection ∧
  ∃ e1 c1 e2 c2 g1 g2,
    set_key ds1 "A" "k1" (BInt 1) None 10 mongo_collection = Ok (e1, c1)
    ∧ set_key ds1 "A" "k1" (BInt 2) None 20 c1 = Ok (e2, c2)
    ∧ get_key ds1 "A" "k1" c1 = Some g1
    ∧ get_key ds1 "A" "k1" c2 = Some g2
    ∧ KeyDocument.value g2 = BInt 2
    ∧ KeyDocument.created_at g2 = KeyDocument.created_at g1
    ∧ KeyDocument.updated_at g2 = BTime 20
    ∧ (get_key ds1 "A" "k1" mongo_collection = None → KeyDocument.created_at g1 = BTime 10).
Proof.
  pose proof mongo_collection_own as H.
  split; [exact H|].
  apply (set_key_twice_then_get ds1 "A" "k1" (BInt 1) (BInt 2) None None 10 20 mongo_collection H).
Defined.

(** ** Overwriting an entry *)

Lemma stored_Some_find self s k c d :
  stored self s k c = Some d →
  ∃ i, list_find (matches (key_query self s k)) (documents c) = Some (i, d).
Proof.
  unfold stored, Coll.find_one.
  destruct (list_find _ _) as [[i d']|]; [|discriminate].
  intros [= ->]. by exists i.
Qed.

(** C2, as the code has it: [set_key] on an existing entry succeeds,
    writes the value and [updated_at = now], and leaves [created_at] and
    the stored [expires_at] as they were, whatever the ttl passed. *)
Theorem set_key_existing_keeps_expiry self s k v ttl now c d :
  own_constraints c →
  stored self s k c = Some d →
  ∃ e c' d',
    set_key self s k v ttl now c = Ok (e, c')
    ∧ stored self s k c' = Some d'
    ∧ d' !! "value" = Some v
    ∧ d' !! "updated_at" = Some (BTime now)
    ∧ d' !! "created_at" = d !! "created_at"
    ∧ d' !! "expires_at" = d !! "expires_at".
Proof.
  intros Hown Hd.
  destruct (stored_after_set_key self s k v ttl now c Hown)
    as (e & c' & Hset & _ & Hst).
  rewrite Hd in Hst.
  exists e, c', (written v now ∪ d).
  split; [exact Hset|]. split; [exact Hst|].
  split; [by apply lookup_union_Some_l|].
  split; [by apply lookup_union_Some_l|].
  split; by apply lookup_union_r.
Qed.

Lemma with_k1_own : own_constraints with_k1.
Proof. apply (bool_decide_unpack _). vm_compute. exact I. Qed.

Lemma set_key_existing_keeps_expiry_witness :
  own_constraints with_k1
  ∧ stored ds1 "A" "k1" with_k1 = Some (inserted ds1 "A" "k1" (BInt 1) None 10)
  ∧ ∃ e c' d',
      set_key ds1 "A" "k1" (BInt 2) (Some 60) 20 with_k1 = Ok (e, c')
      ∧ stored ds1 "A" "k1" c' = Some d'
      ∧ d' !! "value" = Some (BInt 2)
      ∧ d' !! "updated_at" = Some (BTime 20)
      ∧ d' !! "created_at" = inserted ds1 "A" "k1" (BInt 1) None 10 !! "created_at"
      ∧ d' !! "expires_at" = inserted ds1 "A" "k1" (BInt 1) None 10 !! "expires_at".
Proof.
  assert (Hs : stored ds1 "A" "k1" with_k1
               = Some (inserted ds1 "A" "k1" (BInt 1) None 10))
    by (vm_compute; reflexivity).
  split; [exact with_k1_own|]. split; [exact Hs|].
  exact (set_key_existing_keeps_expiry ds1 "A" "k1" (BInt 2) (Some 60) 20
           with_k1 _ with_k1_own Hs).
Defined.

(** C2 as stated fails: over an entry written without a ttl, a [set_key]
    passing sixty seconds leaves the stored expiration null, not
    [now + ttl]; over an entry expiring at 70, a [set_key] passing no ttl
    leaves 70 in place instead of clearing it. *)
Lemma set_key_existing_expiry_counterexample :
  (is_Ok (set_key ds1 "A" "k1" (BInt 2) (Some 60) 20 with_k1) = true
   ∧ KeyDocument.expires_at <$>
       get_key ds1 "A" "k1"
         (perform with_k1 (mkEvent ds1 20 (SetKey "A" "k1" (BInt 2) (Some 60))))
     = Some BNull
   ∧ KeyDocument.get_expiration 20 (Some 60) = BTime 80)
  ∧ (is_Ok (set_key ds1 "A" "k1" (BInt 2) None 20 with_k1_ttl) = true
     ∧ KeyDocument.expires_at <$> get_key ds1 "A" "k1" with_k1_ttl
       = Some (BTime 70)
     ∧ KeyDocument.expires_at <$>
         get_key ds1 "A" "k1"
           (perform with_k1_ttl (mkEvent ds1 20 (SetKey "A" "k1" (BInt 2) None)))
       = Some (BTime 70)).
Proof. vm_compute. repeat split; reflexivity. Qed.

(** ** Store markers *)

Lemma triple_marker self s :
  triple (marker self s) = [BStr s; BStr SENTINEL; oid (_dataset_id self)].
Proof. vm_compute. reflexivity. Qed.

Lemma find_Some_iff (q : Query) (l : list Document) :
  is_Some (list_find (matches q) l) ↔ ∃ d, d ∈ l ∧ matches q d.
Proof.
  split.
  - intros [[i d] H]. apply list_find_Some in H as (Hi & Hm & _).
    exists d. split; [|done]. by eapply list_elem_of_lookup_2.
  - intros (d & Hd & Hm). by eapply list_find_elem_of.
Qed.

Lemma has_store_true self s c :
  has_store self s c = true ↔
  [BStr s; BStr SENTINEL; oid (_dataset_id self)] ∈ triple <$> documents c.
Proof.
  unfold has_store. cbv zeta. fold SENTINEL. fold (key_query self s SENTINEL).
  rewrite bool_decide_eq_true. unfold Coll.find_one.
  rewrite fmap_is_Some, find_Some_iff, list_elem_of_fmap.
  split.
  - intros (d & Hd & Hm). exists d. split; [|done].
    symmetry. by apply matches_key_query.
  - intros (d & Heq & Hd). exists d. split; [done|].
    by apply matches_key_query.
Qed.

Lemma collides_iff c d :
  own_constraints c →
  collides (indexes c) (documents c) d ↔
  enforces_unique c ∧ triple d ∈ triple <$> documents c.
Proof.
  intros Hown. unfold own_constraints in Hown. rewrite Forall_forall in Hown.
  unfold collides, enforces_unique. rewrite !Exists_exists. split.
  - intros (ix & Hix & Hu & Hex). pose proof (Hown ix Hix Hu) as Hk. split.
    + by exists ix.
    + apply Exists_exists in Hex as (d' & Hd' & Heq).
      rewrite !(index_key_triple ix) in Heq by done.
      rewrite <- Heq. by apply list_elem_of_fmap_2.
  - intros [(ix & Hix & Hu & Hk) Hin]. exists ix. split; [done|]. split; [done|].
    apply list_elem_of_fmap in Hin as (d' & Heq & Hd').
    apply Exists_exists. exists d'. split; [done|].
    by rewrite !(index_key_triple ix) by done.
Qed.

Lemma marker_collides self s c :
  own_constraints c →
  collides (indexes c) (documents c) (marker self s)
  ↔ enforces_unique c ∧ has_store self s c = true.
Proof.
  intros Hown. rewrite collides_iff by done.
  by rewrite has_store_true, triple_marker.
Qed.

Lemma create_store_unfold self s c :
  own_constraints c →
  create_store self s c =
    if decide (enforces_unique c ∧ has_store self s c = true)
    then Raise DuplicateKeyError
    else Ok (StoreDocument.mk s (_dataset_id self),
             with_documents c (documents c ++ [marker self s])).
Proof.
  intros Hown. unfold create_store, Coll.insert_one. cbv zeta.
  fold (marker self s).
  pose proof (marker_collides self s c Hown) as Hiff.
  destruct (decide (collides _ _ _)) as [Hc|Hc].
  - rewrite decide_True by (by apply Hiff). reflexivity.
  - rewrite decide_False by (by rewrite <- Hiff). reflexivity.
Qed.

(** C3, as the code has it: [create_store] makes no check of its own.  On
    a collection that enforces the repository's uniqueness constraint, a
    marker already present for the name in the context makes the insert
    raise a duplicate-key error; in every other case the call succeeds,
    returns the marker and appends its document. *)
Theorem create_store_outcome self s c :
  own_constraints c →
  create_store self s c =
    if decide (enforces_unique c ∧ has_store self s c = true)
    then Raise DuplicateKeyError
    else Ok (StoreDocument.mk s (_dataset_id self),
             with_documents c (documents c ++ [marker self s])).
Proof.
  intros Hown. unfold create_store, Coll.insert_one. cbv zeta.
  fold (marker self s).
  destruct (decide (collides _ _ _)) as [Hc|Hc].
  - rewrite decide_True by (by apply (marker_collides self s c Hown)).
    reflexivity.
  - rewrite decide_False by (by rewrite <- (marker_collides self s c Hown)).
    reflexivity.
Qed.

Lemma with_store_A_own : own_constraints with_store_A.
Proof. apply (bool_decide_unpack _). vm_compute. exact I. Qed.

Lemma create_store_outcome_witness :
  own_constraints with_store_A
  ∧ create_store ds1 "A" with_store_A =
      if decide (enforces_unique with_store_A
                 ∧ has_store ds1 "A" with_store_A = true)
      then Raise DuplicateKeyError
      else Ok (StoreDocument.mk "A" (_dataset_id ds1),
               with_documents with_store_A
                 (documents with_store_A ++ [marker ds1 "A"])).
Proof.
  split; [exact with_store_A_own|].
  exact (create_store_outcome ds1 "A" with_store_A with_store_A_own).
Defined.

(** C3 as stated fails: behind a Mongo repository, creating store "A" a
    second time in the same context does not succeed; the unique index
    rejects the second marker. *)
Lemma create_store_duplicate_counterexample :
  has_store ds1 "A" with_store_A = true
  ∧ create_store ds1 "A" with_store_A = Raise DuplicateKeyError.
Proof. vm_compute. split; reflexivity. Qed.

(** Without the index the same call does go through and leaves two
    markers behind. *)
Example create_store_duplicate_unindexed :
  has_store ds1 "A" unindexed_store_A = true
  ∧ is_Ok (create_store ds1 "A" unindexed_store_A) = true
  ∧ count_stores ds1
      (perform unindexed_store_A (mkEvent ds1 11 (CreateStore "A"))) = 2.
Proof. vm_compute. repeat split; reflexivity. Qed.

(** ** Changing the ttl *)

Lemma triple_expiry e d : triple (<["expires_at" := e]> d) = triple d.
Proof. unfold triple, field. by rewrite !lookup_insert_ne. Qed.

Lemma insert_same_iff (d : Document) f e : <[f := e]> d = d ↔ d !! f = Some e.
Proof.
  split.
  - intros H. rewrite <- H. apply lookup_insert_eq.
  - apply insert_id.
Qed.

Lemma intersection_empty_r (m : Document) : m ∩ ∅ = ∅.
Proof.
  apply map_eq. intros i. rewrite lookup_empty.
  apply lookup_intersection_None. right. apply lookup_empty.
Qed.

Lemma update_ttl_unfold self s k ttl now c :
  own_constraints c →
  update_ttl self s k ttl now c =
    match list_find (matches (key_query self s k)) (documents c) with
    | Some (i, d) =>
        Ok (bool_decide
              (d !! "expires_at" ≠ Some (KeyDocument.get_expiration now ttl)),
            with_documents c
              (<[i := <["expires_at" := KeyDocument.get_expiration now ttl]> d]>
                 (documents c)))
    | None => Ok (false, c)
    end.
Proof.
  intros Hown. unfold update_ttl, Coll.update_one. cbv zeta.
  cbn [Coll.set_fields Coll.set_on_insert].
  fold (key_query self s k).
  rewrite decide_True by apply intersection_empty_r.
  destruct (list_find _ _) as [[i d]|]; [|reflexivity].
  rewrite <- insert_union_singleton_l.
  rewrite decide_False by (apply update_keeps_triple; [done | apply triple_expiry]).
  cbn [mbind Result_bind mret Result_ret Coll.modified_count].
  f_equal. f_equal.
  destruct (decide (<["expires_at" := _]> d = d)) as [Heq|Hne].
  - rewrite bool_decide_eq_false_2; [|lia].
    symmetry. apply bool_decide_eq_false_2. intros Hn. apply Hn.
    by apply insert_same_iff.
  - rewrite bool_decide_eq_true_2; [|lia].
    symmetry. apply bool_decide_eq_true_2. intros Hn. apply Hne.
    by apply insert_same_iff.
Qed.

Lemma matches_expiry self s k e d :
  matches (key_query self s k) d →
  matches (key_query self s k) (<["expires_at" := e]> d).
Proof. rewrite !matches_key_query, triple_expiry. done. Qed.

(** C7: [update_ttl] never raises.  When an entry is stored under the
    store, key and context, that document alone is rewritten, with its
    [expires_at] recomputed and every other field as it was, and the answer
    is true exactly when the stored [expires_at] differed from the new one;
    when none is stored the answer is false and the collection is
    unchanged. *)
Theorem update_ttl_frame self s k ttl now c :
  own_constraints c →
  ∃ b c',
    update_ttl self s k ttl now c = Ok (b, c')
    ∧ match stored self s k c with
      | Some d =>
          ∃ i d',
            documents c !! i = Some d
            ∧ documents c' = <[i := d']> (documents c)
            ∧ stored self s k c' = Some d'
            ∧ d' !! "expires_at" = Some (KeyDocument.get_expiration now ttl)
            ∧ (∀ f, f ≠ "expires_at" → d' !! f = d !! f)
            ∧ (b = true ↔ d' !! "expires_at" ≠ d !! "expires_at")
      | None => b = false ∧ c' = c
      end.
Proof.
  intros Hown. rewrite update_ttl_unfold by done.
  unfold stored, Coll.find_one.
  destruct (list_find _ (documents c)) as [[i d]|] eqn:Hfind.
  - eexists _, _. split; [reflexivity|]. cbn [fmap option_fmap option_map snd].
    pose proof Hfind as Hf. apply list_find_Some in Hf as (Hi & Hm & _).
    exists i, (<["expires_at" := KeyDocument.get_expiration now ttl]> d).
    split; [exact Hi|]. split; [reflexivity|].
    split.
    { cbn [documents with_documents].
      erewrite find_after_replace; [reflexivity | exact Hfind |].
      by apply matches_expiry. }
    split; [apply lookup_insert_eq|].
    split; [intros f Hf; by apply lookup_insert_ne|].
    rewrite bool_decide_eq_true, lookup_insert_eq.
    split; intros H Heq; apply H; congruence.
  - eexists _, _. split; [reflexivity|]. cbn. split; reflexivity.
Qed.

Lemma update_ttl_frame_witness :
  own_constraints with_k1
  ∧ ∃ b c',
      update_ttl ds1 "A" "k1" (Some 60) 20 with_k1 = Ok (b, c')
      ∧ match stored ds1 "A" "k1" with_k1 with
        | Some d =>
            ∃ i d',
              documents with_k1 !! i = Some d
              ∧ documents c' = <[i := d']> (documents with_k1)
              ∧ stored ds1 "A" "k1" c' = Some d'
              ∧ d' !! "expires_at"
                = Some (KeyDocument.get_expiration 20 (Some 60))
              ∧ (∀ f, f ≠ "expires_at" → d' !! f = d !! f)
              ∧ (b = true ↔ d' !! "expires_at" ≠ d !! "expires_at")
        | None => b = false ∧ c' = with_k1
        end.
Proof.
  split; [exact with_k1_own|].
  exact (update_ttl_frame ds1 "A" "k1" (Some 60) 20 with_k1 with_k1_own).
Defined.

(** The scenario of the specification: a ttl of sixty seconds on an entry
    written without one is reported as a change and is read back; on a key
    that was never written the answer is false. *)
Example update_ttl_scenario :
  update_ttl ds1 "A" "k1" (Some 60) 20 with_k1
    = Ok (true, perform with_k1 (mkEvent ds1 20 (UpdateTtl "A" "k1" (Some 60))))
  ∧ KeyDocument.expires_at <$>
      get_key ds1 "A" "k1"
        (perform with_k1 (mkEvent ds1 20 (UpdateTtl "A" "k1" (Some 60))))
    = Some (BTime 80)
  ∧ update_ttl ds1 "A" "nope" (Some 60) 20 with_k1 = Ok (false, with_k1).
Proof. vm_compute. repeat split; reflexivity. Qed.

(** ** Every event, as an effect on the documents *)

Lemma bind_Ok {A B} (r : Result A) (k : A → Result B) y :
  (r ≫= k) = Ok y → ∃ x, r = Ok x ∧ k x = Ok y.
Proof. destruct r as [x|e]; [|discriminate]. intros H. by exists x. Qed.

Lemma grown_refl c : grown c c.
Proof. split; [done|]. exists []. by rewrite app_nil_r. Qed.

Lemma grown_trans c1 c2 c3 : grown c1 c2 → grown c2 c3 → grown c1 c3.
Proof.
  intros [Hd1 (m1 & Hi1 & Hm1)] [Hd2 (m2 & Hi2 & Hm2)]. split; [congruence|].
  exists (m1 ++ m2). split.
  - by rewrite Hi2, Hi1, app_assoc.
  - by apply Forall_app.
Qed.

Lemma create_index_grown ix c c' :
  harmless ix → Coll.create_index ix c = Ok c' → grown c c'.
Proof.
  intros Hix. unfold Coll.create_index. case_decide; [discriminate|].
  intros [= <-]. split; [done|]. exists [ix]. split; [done|].
  by apply Forall_singleton.
Qed.

Lemma create_if_missing_grown {P : Prop} (dec : {P} + {¬ P}) ix c c' :
  harmless ix →
  (if dec then Coll.create_index ix c else Ok c) = Ok c' → grown c c'.
Proof.
  intros Hix. destruct dec.
  - by apply create_index_grown.
  - intros [= <-]. apply grown_refl.
Qed.

Lemma create_missing_grown indices names c c' :
  MongoExecutionStoreRepo.create_missing indices names c = Ok c' → grown c c'.
Proof.
  revert c. induction names as [|name names IH]; intros c; simpl.
  - intros [= <-]. apply grown_refl.
  - intros H. apply bind_Ok in H as (c1 & H1 & H2).
    apply grown_trans with c1; [|by apply IH].
    eapply create_if_missing_grown; [|exact H1]. intros Hu. discriminate Hu.
Qed.

Lemma create_indexes_grown c c' :
  MongoExecutionStoreRepo._create_indexes c = Ok c' → grown c c'.
Proof.
  unfold MongoExecutionStoreRepo._create_indexes. cbv zeta. intros H.
  apply bind_Ok in H as (c1 & H1 & H).
  apply bind_Ok in H as (c2 & H2 & H3).
  apply grown_trans with c1.
  { eapply create_if_missing_grown; [|exact H1]. intros Hu. discriminate Hu. }
  apply grown_trans with c2.
  { eapply create_if_missing_grown; [|exact H2]. intros _. reflexivity. }
  by eapply create_missing_grown.
Qed.

(** The indexes only ever grow, and harmlessly. *)
Lemma perform_indexes c e :
  own_constraints c →
  ∃ more, indexes (perform c e) = indexes c ++ more ∧ Forall harmless more.
Proof.
  intros Hown.
  assert (∀ c', indexes c' = indexes c →
            ∃ more, indexes c' = indexes c ++ more ∧ Forall harmless more)
    as Hsame.
  { intros c' ->. exists []. by rewrite app_nil_r. }
  destruct e as [self now [s|s|s k v ttl|s k ttl|s k| | |]];
    unfold perform; cbn [on at_time call].
  - rewrite create_store_unfold by done. case_decide; by apply Hsame.
  - by apply Hsame.
  - rewrite set_key_unfold by done.
    destruct (list_find _ _) as [[i d]|]; by apply Hsame.
  - rewrite update_ttl_unfold by done.
    destruct (list_find _ _) as [[i d]|]; by apply Hsame.
  - unfold delete_key, Coll.delete_one.
    destruct (list_find _ _) as [[i d]|]; by apply Hsame.
  - by apply Hsame.
  - unfold MongoExecutionStoreRepo.init.
    destruct (MongoExecutionStoreRepo._create_indexes c) as [c'|err] eqn:Hci.
    + apply create_indexes_grown in Hci as [_ Hci]. exact Hci.
    + by apply Hsame.
  - by apply Hsame.
Qed.

Lemma perform_own c e : own_constraints c → own_constraints (perform c e).
Proof.
  intros Hown. destruct (perform_indexes c e Hown) as (more & Hi & Hm).
  unfold own_constraints. rewrite Hi. apply Forall_app. by split.
Qed.

Lemma perform_enforces c e :
  own_constraints c → enforces_unique c → enforces_unique (perform c e).
Proof.
  intros Hown Henf. destruct (perform_indexes c e Hown) as (more & Hi & Hm).
  unfold enforces_unique. rewrite Hi. apply Exists_app. by left.
Qed.

Lemma perform_effect c e :
  own_constraints c → effect c e (documents (perform c e)).
Proof.
  intros Hown.
  destruct e as [self now [s|s|s k v ttl|s k ttl|s k| | |]];
    unfold perform; cbn [on at_time call].
  - rewrite create_store_unfold by done.
    destruct (decide _) as [Hy|Hn]; cbn [state_of documents with_documents].
    + by apply eff_removed.
    + apply eff_marker. intros Henf Hin. apply Hn. split; [done|].
      apply has_store_true. by rewrite <- triple_marker.
  - apply eff_removed. apply sublist_filter.
  - rewrite set_key_unfold by done.
    destruct (list_find _ _) as [[i d]|] eqn:Hfind;
      cbn [state_of documents with_documents].
    + by apply eff_overwrite.
    + by apply eff_insert.
  - rewrite update_ttl_unfold by done.
    destruct (list_find _ _) as [[i d]|] eqn:Hfind;
      cbn [state_of documents with_documents].
    + by apply eff_expiry.
    + by apply eff_removed.
  - unfold delete_key, Coll.delete_one.
    destruct (list_find _ _) as [[i d]|]; cbn [snd documents with_documents];
      apply eff_removed; [apply sublist_delete | done].
  - apply eff_removed. apply sublist_filter.
  - unfold MongoExecutionStoreRepo.init.
    destruct (MongoExecutionStoreRepo._create_indexes c) as [c'|err] eqn:Hci;
      cbn [mbind Result_bind mret Result_ret state_of].
    + apply create_indexes_grown in Hci as [-> _]. by apply eff_removed.
    + by apply eff_removed.
  - apply eff_removed. apply sublist_filter.
Qed.

(** An invariant of the documents that every effect keeps is kept by
    every trace. *)
Lemma run_invariant (P : list Document → Prop) (allowed : Event → Prop)
    (needs_index : bool) :
  (∀ c e l, own_constraints c → (needs_index = true → enforces_unique c) →
            allowed e → P (documents c) → effect c e l → P l) →
  ∀ tr c, own_constraints c → (needs_index = true → enforces_unique c) →
          Forall allowed tr → P (documents c) → P (documents (run c tr)).
Proof.
  intros Hstep tr. induction tr as [|e tr IH]; intros c Hown Henf Hall HP.
  - exact HP.
  - apply Forall_cons in Hall as [He Hall].
    change (run c (e :: tr)) with (run (perform c e) tr).
    apply IH; [by apply perform_own | | done |].
    + intros Hb. apply perform_enforces; [done | by apply Henf].
    + apply (Hstep c e); [done..|]. by apply perform_effect.
Qed.

(** ** Uniqueness of store name, key and owner *)

Lemma triples_after_replace (l : list Document) i d d' :
  l !! i = Some d → triple d' = triple d →
  triple <$> <[i := d']> l = triple <$> l.
Proof.
  intros Hi Ht. rewrite list_fmap_insert, Ht. apply list_insert_id.
  by rewrite list_lookup_fmap, Hi.
Qed.

Lemma NoDup_snoc_fresh {A} (l : list A) x : NoDup l → x ∉ l → NoDup (l ++ [x]).
Proof.
  intros Hnd Hx. apply NoDup_app. split; [done|]. split; [|apply NoDup_singleton].
  intros y Hy Hin. apply list_elem_of_singleton in Hin. by subst.
Qed.

Lemma unique_effect c e l :
  own_constraints c → enforces_unique c →
  NoDup (triple <$> documents c) → effect c e l → NoDup (triple <$> l).
Proof.
  intros Hown Henf Hnd Heff.
  destruct Heff as [e l Hsub|self now s Hfresh|self now s k v ttl i d Hf
                   |self now s k v ttl Hf|self now s k ttl i d Hf].
  - eapply sublist_NoDup; [exact Hnd|]. by apply fmap_sublist.
  - rewrite fmap_app. apply NoDup_snoc_fresh; [done | by apply Hfresh].
  - apply list_find_Some in Hf as (Hi & _ & _).
    rewrite (triples_after_replace _ _ d); [done | done | apply triple_written].
  - rewrite fmap_app. apply NoDup_snoc_fresh; [done|].
    cbn [fmap list_fmap]. rewrite triple_inserted. by apply find_None_fresh.
  - apply list_find_Some in Hf as (Hi & _ & _).
    rewrite (triples_after_replace _ _ d); [done | done | apply triple_expiry].
Qed.

Lemma mongo_collection_enforces : enforces_unique mongo_collection.
Proof. apply (bool_decide_unpack _). vm_compute. exact I. Qed.

Lemma NoDup_constant {A} (l : list A) x :
  NoDup l → Forall (λ y, y = x) l → (length l ≤ 1)%nat.
Proof.
  intros Hnd Hall. destruct l as [|a [|b l]]; simpl; [lia | lia |].
  exfalso. apply Forall_cons in Hall as [-> Hall].
  apply Forall_cons in Hall as [-> _].
  apply NoDup_cons in Hnd as [Hnot _]. apply Hnot. apply list_elem_of_here.
Qed.

Lemma unique_at_most_one self s k c :
  unique_triples c →
  (length (Coll.find (key_query self s k) c) ≤ 1)%nat.
Proof.
  intros Hu. unfold Coll.find. rewrite <- (length_fmap triple).
  apply NoDup_constant with [BStr s; BStr k; oid (_dataset_id self)].
  - eapply sublist_NoDup; [exact Hu|]. apply fmap_sublist, sublist_filter.
  - apply Forall_fmap, Forall_forall. intros d Hd.
    apply list_elem_of_filter in Hd as [Hm _]. by apply matches_key_query.
Qed.

(** C4: whatever sequence of calls the instances sharing the collection
    of a Mongo repository make, in whatever order and from whatever
    contexts, and whenever the engine sweeps, no two documents share store
    name, key and owner; in particular a query by store, key and context
    never finds more than one. *)
Theorem unique_triples_reachable tr :
  unique_triples (run mongo_collection tr)
  ∧ ∀ self s k,
      (length (Coll.find (key_query self s k) (run mongo_collection tr)) ≤ 1)%nat.
Proof.
  assert (unique_triples (run mongo_collection tr)) as Hu.
  { unfold unique_triples.
    apply (run_invariant (λ l, NoDup (triple <$> l)) (λ _, True) true).
    - intros c e l Hown Henf _ Hnd Heff.
      eapply unique_effect; [done | by apply Henf | done | done].
    - exact mongo_collection_own.
    - intros _. exact mongo_collection_enforces.
    - apply Forall_true. done.
    - apply NoDup_nil_2. }
  split; [exact Hu|]. intros self s k. by apply unique_at_most_one.
Qed.

(** ** The reserved key *)

Lemma Forall_sublist {A} (P : A → Prop) (l1 l2 : list A) :
  l1 `sublist_of` l2 → Forall P l2 → Forall P l1.
Proof.
  rewrite !Forall_forall. intros Hsub H x Hx. apply H.
  by eapply elem_of_sublist.
Qed.

Lemma field_insert_ne f g e d : f ≠ g → field g (<[f := e]> d) = field g d.
Proof. intros Hne. unfold field. by rewrite lookup_insert_ne. Qed.

Lemma matches_key_field self s k d :
  matches (key_query self s k) d → field "key" d = BStr k.
Proof. rewrite matches_key_query. unfold triple. by intros [= _ -> _]. Qed.

Lemma marker_is_marker_like self s : marker_like (marker self s).
Proof. intros _. reflexivity. Qed.

Lemma field_key_inserted self s k v ttl now :
  field "key" (inserted self s k v ttl now) = BStr k.
Proof.
  unfold inserted.
  generalize (if truthy ttl then KeyDocument.get_expiration now ttl
              else BNull).
  intros e. vm_compute. reflexivity.
Qed.

Lemma marker_like_effect c e l :
  spares_sentinel e →
  Forall marker_like (documents c) → effect c e l → Forall marker_like l.
Proof.
  intros Hsp Hall Heff.
  destruct Heff as [e l Hsub|self now s Hfresh|self now s k v ttl i d Hf
                   |self now s k v ttl Hf|self now s k ttl i d Hf].
  - by eapply Forall_sublist.
  - apply Forall_app. split; [done|]. apply Forall_singleton.
    apply marker_is_marker_like.
  - apply Forall_insert; [done|]. intros Hk. exfalso.
    apply list_find_Some in Hf as (_ & Hm & _).
    rewrite field_union_None in Hk by done.
    rewrite (matches_key_field _ _ _ _ Hm) in Hk. injection Hk as Hk.
    by apply Hsp.
  - apply Forall_app. split; [done|]. apply Forall_singleton.
    intros Hk. exfalso. rewrite field_key_inserted in Hk.
    injection Hk as Hk. by apply Hsp.
  - apply Forall_insert; [done|].
    apply list_find_Some in Hf as (Hi & _ & _).
    rewrite Forall_lookup in Hall. specialize (Hall i d Hi).
    intros Hk. rewrite field_insert_ne in Hk by done.
    rewrite field_insert_ne by done. by apply Hall.
Qed.

(** C5, as the code has it: as long as no [set_key] is made under the
    reserved key, every document stored under it holds no value, as
    [create_store] wrote it. *)
Theorem sentinel_spared_invariant c tr :
  own_constraints c →
  Forall marker_like (documents c) →
  Forall spares_sentinel tr →
  Forall marker_like (documents (run c tr)).
Proof.
  intros Hown Hall Hsp.
  apply (run_invariant (Forall marker_like) spares_sentinel false);
    [|done|discriminate|done|done].
  intros c0 e l _ _ He HP Heff. by eapply marker_like_effect.
Qed.

Lemma sentinel_spared_invariant_witness :
  own_constraints mongo_collection
  ∧ Forall marker_like (documents mongo_collection)
  ∧ Forall spares_sentinel busy_trace
  ∧ Forall marker_like (documents (run mongo_collection busy_trace)).
Proof.
  assert (Forall marker_like (documents mongo_collection)) as H1
    by (apply (bool_decide_unpack _); vm_compute; exact I).
  assert (Forall spares_sentinel busy_trace) as H2
    by (apply (bool_decide_unpack _); vm_compute; exact I).
  split; [exact mongo_collection_own|]. split; [exact H1|]. split; [exact H2|].
  exact (sentinel_spared_invariant mongo_collection busy_trace
           mongo_collection_own H1 H2).
Defined.

(** C5 as stated fails: [set_key] takes the reserved key like any other.
    On store "A" it overwrites the marker, which from then on carries the
    caller's value and is returned by [get_key]; on a store that was never
    created it inserts a document that [has_store] takes for a marker. *)
Lemma sentinel_key_counterexample :
  is_Ok (set_key ds1 "A" SENTINEL (BInt 7) None 11 with_store_A) = true
  ∧ (∃ d, d ∈ documents sentinel_written
          ∧ field "key" d = BStr SENTINEL ∧ field "value" d = BInt 7)
  ∧ KeyDocument.value <$> get_key ds1 "A" SENTINEL sentinel_written
    = Some (BInt 7)
  ∧ has_store ds1 "B" mongo_collection = false
  ∧ has_store ds1 "B"
      (perform mongo_collection
         (mkEvent ds1 11 (SetKey "B" SENTINEL (BInt 7) None))) = true.
Proof.
  split; [vm_compute; reflexivity|]. split.
  - exists (written (BInt 7) 11 ∪ marker ds1 "A").
    assert (documents sentinel_written = [written (BInt 7) 11 ∪ marker ds1 "A"])
      as -> by (vm_compute; reflexivity).
    split; [apply list_elem_of_here|]. split; vm_compute; reflexivity.
  - vm_compute. repeat split; reflexivity.
Qed.

(** ** Contexts *)

Lemma oid_inj a b : oid a = oid b → a = b.
Proof. destruct a, b; simpl; congruence. Qed.

Lemma matches_context self d :
  matches [("dataset_id", Is (oid (_dataset_id self)))] d ↔ in_context self d.
Proof.
  unfold matches, in_context. rewrite Forall_cons, Forall_nil.
  unfold cond_holds; simpl. tauto.
Qed.

Lemma other_context C D d :
  _dataset_id C ≠ _dataset_id D → in_context D d → ¬ in_context C d.
Proof.
  unfold in_context. intros Hne HD HC. apply Hne, oid_inj. congruence.
Qed.

Lemma keys_query_context self s d :
  matches (keys_query self s) d → in_context self d.
Proof.
  unfold matches, keys_query, in_context. rewrite !Forall_cons.
  unfold cond_holds; simpl. tauto.
Qed.

Lemma stores_query_context self d :
  matches (stores_query self) d → in_context self d.
Proof.
  unfold matches, stores_query, in_context. rewrite !Forall_cons.
  unfold cond_holds; simpl. tauto.
Qed.

Lemma filter_kept {A} (P Q : A → Prop) `{!∀ x, Decision (P x)}
    `{!∀ x, Decision (Q x)} (l : list A) :
  (∀ x, Q x → ¬ P x) → filter Q (filter (λ x, ¬ P x) l) = filter Q l.
Proof.
  intros Himp. rewrite list_filter_filter. apply list_filter_iff.
  intros x. split; [tauto|]. intros Hq. split; [done | by apply Himp].
Qed.

Lemma filter_gone {A} (P Q : A → Prop) `{!∀ x, Decision (P x)}
    `{!∀ x, Decision (Q x)} (l : list A) :
  (∀ x, Q x → P x) → filter Q (filter (λ x, ¬ P x) l) = [].
Proof.
  intros Himp. rewrite list_filter_filter.
  induction l as [|x l IH]; [done|].
  rewrite filter_cons_False; [done|]. intros [Hq Hn]. by apply Hn, Himp.
Qed.

Lemma cleanup_documents self c :
  documents (cleanup self c).2
  = filter (λ d, ¬ in_context self d) (documents c).
Proof.
  unfold cleanup, Coll.delete_many. cbn [snd documents with_documents].
  apply list_filter_iff. intros d. by rewrite matches_context.
Qed.

(** C6: [cleanup] on context [C] removes exactly the documents of [C] and
    answers their number, which may be zero; for any other context [D],
    its documents, its store count and every key count are what they
    were, while the counts of [C] drop to zero. *)
Theorem cleanup_frame C D c :
  _dataset_id C ≠ _dataset_id D →
  ∃ n c',
    cleanup C c = (n, c')
    ∧ n = Z.of_nat (length (filter (in_context C) (documents c)))
    ∧ 0 ≤ n
    ∧ documents c' = filter (λ d, ¬ in_context C d) (documents c)
    ∧ filter (in_context D) (documents c') = filter (in_context D) (documents c)
    ∧ count_stores D c' = count_stores D c
    ∧ (∀ s, count_keys D s c' = count_keys D s c)
    ∧ count_stores C c' = 0
    ∧ (∀ s, count_keys C s c' = 0).
Proof.
  intros Hne. exists (cleanup C c).1, (cleanup C c).2.
  split; [by destruct (cleanup C c)|].
  assert ((cleanup C c).1
          = Z.of_nat (length (filter (in_context C) (documents c)))) as Hn.
  { unfold cleanup, Coll.delete_many. cbn [fst]. do 2 f_equal.
    apply list_filter_iff. intros d. apply matches_context. }
  split; [exact Hn|]. split; [rewrite Hn; lia|].
  split; [apply cleanup_documents|].
  split.
  { rewrite cleanup_documents. apply filter_kept.
    intros d. by apply other_context. }
  unfold count_stores, count_keys, Coll.count_documents.
  fold (stores_query D). fold (stores_query C).
  rewrite !cleanup_documents. split; [|split; [|split]].
  - rewrite filter_kept; [done|]. intros d Hd.
    by apply (other_context C D), stores_query_context.
  - intros s. fold (keys_query D s). rewrite filter_kept; [done|]. intros d Hd.
    by apply (other_context C D), (keys_query_context D s).
  - rewrite filter_gone; [done|]. apply stores_query_context.
  - intros s. fold (keys_query C s). rewrite filter_gone; [done|].
    apply keys_query_context.
Qed.

Lemma cleanup_frame_witness :
  _dataset_id ds1 ≠ _dataset_id ds2
  ∧ ∃ n c',
      cleanup ds1 (run mongo_collection busy_trace) = (n, c')
      ∧ n = Z.of_nat (length (filter (in_context ds1)
                                (documents (run mongo_collection busy_trace))))
      ∧ 0 ≤ n
      ∧ documents c'
        = filter (λ d, ¬ in_context ds1 d)
            (documents (run mongo_collection busy_trace))
      ∧ filter (in_context ds2) (documents c')
        = filter (in_context ds2) (documents (run mongo_collection busy_trace))
      ∧ count_stores ds2 c' = count_stores ds2 (run mongo_collection busy_trace)
      ∧ (∀ s, count_keys ds2 s c'
              = count_keys ds2 s (run mongo_collection busy_trace))
      ∧ count_stores ds1 c' = 0
      ∧ (∀ s, count_keys ds1 s c' = 0).
Proof.
  assert (_dataset_id ds1 ≠ _dataset_id ds2) as Hne by discriminate.
  split; [exact Hne|].
  exact (cleanup_frame ds1 ds2 (run mongo_collection busy_trace) Hne).
Defined.

(** ** Where a store exists *)

Lemma create_store_Ok self s c m c' :
  create_store self s c = Ok (m, c') →
  m = StoreDocument.mk s (_dataset_id self)
  ∧ documents c' = documents c ++ [marker self s].
Proof.
  unfold create_store, Coll.insert_one. cbv zeta. fold (marker self s).
  case_decide; [discriminate|]. by intros [= <- <-].
Qed.

Lemma has_store_global_true self s c :
  has_store_global self s c = true ↔
  ∃ d, d ∈ documents c
       ∧ field "store_name" d = BStr s ∧ field "key" d = BStr SENTINEL.
Proof.
  unfold has_store_global. cbv zeta. rewrite bool_decide_eq_true.
  unfold Coll.find_one. rewrite fmap_is_Some, find_Some_iff.
  split; intros (d & Hd & Hm); exists d; (split; [done|]).
  - unfold matches in Hm. rewrite !Forall_cons in Hm.
    unfold cond_holds in Hm; simpl in Hm. tauto.
  - unfold matches. rewrite !Forall_cons, Forall_nil.
    unfold cond_holds; simpl. tauto.
Qed.

(** C9: once [create_store] has succeeded in one context, [has_store]
    answers true there, still answers false in any other context that had
    no store of that name, and [has_store_global] answers true on an
    instance bound to any context. *)
Theorem has_store_scoping self1 self2 s c m c' :
  _dataset_id self1 ≠ _dataset_id self2 →
  has_store self2 s c = false →
  create_store self1 s c = Ok (m, c') →
  has_store self1 s c' = true
  ∧ has_store self2 s c' = false
  ∧ ∀ self, has_store_global self s c' = true.
Proof.
  intros Hne Hnot Hcreate.
  apply create_store_Ok in Hcreate as [_ Hdocs].
  split; [|split].
  - apply has_store_true. rewrite Hdocs, fmap_app. apply elem_of_app. right.
    cbn [fmap list_fmap]. rewrite triple_marker. apply list_elem_of_here.
  - apply not_true_iff_false. intros Ht. apply has_store_true in Ht.
    rewrite Hdocs, fmap_app in Ht. apply elem_of_app in Ht as [Ht|Ht].
    + apply not_true_iff_false in Hnot. by apply Hnot, has_store_true.
    + cbn [fmap list_fmap] in Ht. apply list_elem_of_singleton in Ht.
      rewrite triple_marker in Ht. injection Ht as Ht.
      by apply Hne, oid_inj.
  - intros self. apply has_store_global_true. exists (marker self1 s).
    split; [|split; reflexivity].
    rewrite Hdocs. apply elem_of_app. right. apply list_elem_of_here.
Qed.

Lemma has_store_scoping_witness :
  _dataset_id ds1 ≠ _dataset_id ds2
  ∧ has_store ds2 "A" mongo_collection = false
  ∧ create_store ds1 "A" mongo_collection
    = Ok (StoreDocument.mk "A" (Some 1%N), with_store_A)
  ∧ has_store ds1 "A" with_store_A = true
  ∧ has_store ds2 "A" with_store_A = false
  ∧ ∀ self, has_store_global self "A" with_store_A = true.
Proof.
  assert (_dataset_id ds1 ≠ _dataset_id ds2) as Hne by discriminate.
  assert (has_store ds2 "A" mongo_collection = false) as Hnot
    by (vm_compute; reflexivity).
  assert (create_store ds1 "A" mongo_collection
          = Ok (StoreDocument.mk "A" (Some 1%N), with_store_A)) as Hc
    by (vm_compute; reflexivity).
  split; [exact Hne|]. split; [exact Hnot|]. split; [exact Hc|].
  exact (has_store_scoping ds1 ds2 "A" mongo_collection _ _ Hne Hnot Hc).
Defined.

(** ** Deleting under the reserved key *)

Lemma NoDup_delete_gone {A} (l : list A) i x :
  NoDup l → l !! i = Some x → x ∉ delete i l.
Proof.
  intros Hnd Hi. rewrite <- (take_drop_middle l i x Hi) in Hnd.
  rewrite delete_take_drop. apply NoDup_app in Hnd as (_ & Hdisj & Hnd).
  apply NoDup_cons in Hnd as [Hnot _].
  apply not_elem_of_app. split; [|done].
  intros Hin. apply (Hdisj x Hin). apply list_elem_of_here.
Qed.

Lemma filter_delete_other {A} (P : A → Prop) `{!∀ x, Decision (P x)}
    (l : list A) i x :
  l !! i = Some x → ¬ P x → filter P (delete i l) = filter P l.
Proof.
  intros Hi Hx. rewrite delete_take_drop.
  rewrite <- (take_drop_middle l i x Hi) at 3.
  rewrite !filter_app. by rewrite (filter_cons_False _ x).
Qed.

(** C10: on a collection whose triples are pairwise distinct,
    [delete_key] under the reserved key of an existing store answers true
    and removes the marker: [has_store] then answers false, while the keys
    of the store are listed and counted as before. *)
Theorem delete_key_removes_marker self s c :
  unique_triples c →
  has_store self s c = true →
  ∃ c',
    delete_key self s SENTINEL c = (true, c')
    ∧ has_store self s c' = false
    ∧ Coll.find (keys_query self s) c' = Coll.find (keys_query self s) c
    ∧ list_keys self s c' = list_keys self s c
    ∧ count_keys self s c' = count_keys self s c.
Proof.
  intros Hu Hhas.
  assert (∃ i d, list_find (matches (key_query self s SENTINEL)) (documents c)
                 = Some (i, d)) as (i & d & Hfind).
  { unfold has_store in Hhas. cbv zeta in Hhas.
    apply bool_decide_eq_true in Hhas. unfold Coll.find_one in Hhas.
    apply fmap_is_Some in Hhas as [[i d] H]. by exists i, d. }
  pose proof Hfind as Hf. apply list_find_Some in Hf as (Hi & Hm & _).
  exists (with_documents c (delete i (documents c))).
  assert (Coll.find (keys_query self s)
            (with_documents c (delete i (documents c)))
          = Coll.find (keys_query self s) c) as Hkeep.
  { unfold Coll.find. cbn [documents with_documents].
    apply (filter_delete_other _ _ i d); [done|].
    unfold matches, keys_query. rewrite !Forall_cons.
    unfold cond_holds; simpl. intros (_ & Hk & _). apply Hk.
    by apply (matches_key_field self s SENTINEL). }
  split; [|split; [|split; [|split]]].
  - unfold delete_key, Coll.delete_one. fold (key_query self s SENTINEL).
    by rewrite Hfind.
  - apply not_true_iff_false. intros Ht. apply has_store_true in Ht.
    cbn [documents with_documents] in Ht. rewrite list_fmap_delete in Ht.
    revert Ht. apply matches_key_query in Hm. rewrite <- Hm.
    apply NoDup_delete_gone; [exact Hu|]. by rewrite list_lookup_fmap, Hi.
  - exact Hkeep.
  - unfold list_keys. cbv zeta. fold (keys_query self s). by rewrite Hkeep.
  - unfold count_keys, Coll.count_documents. fold (keys_query self s).
    unfold Coll.find in Hkeep. by rewrite Hkeep.
Qed.

Lemma delete_key_removes_marker_witness :
  unique_triples with_k1_store
  ∧ has_store ds1 "A" with_k1_store = true
  ∧ ∃ c',
      delete_key ds1 "A" SENTINEL with_k1_store = (true, c')
      ∧ has_store ds1 "A" c' = false
      ∧ Coll.find (keys_query ds1 "A") c'
        = Coll.find (keys_query ds1 "A") with_k1_store
      ∧ list_keys ds1 "A" c' = list_keys ds1 "A" with_k1_store
      ∧ count_keys ds1 "A" c' = count_keys ds1 "A" with_k1_store.
Proof.
  assert (unique_triples with_k1_store) as Hu
    by (apply (bool_decide_unpack _); vm_compute; exact I).
  assert (has_store ds1 "A" with_k1_store = true) as Hh
    by (vm_compute; reflexivity).
  split; [exact Hu|]. split; [exact Hh|].
  exact (delete_key_removes_marker ds1 "A" with_k1_store Hu Hh).
Defined.

(** ** Listing and counting keys *)

Lemma matches_keys_query self s d :
  matches (keys_query self s) d ↔
  field "store_name" d = BStr s ∧ field "key" d ≠ BStr SENTINEL
  ∧ in_context self d.
Proof.
  unfold matches, keys_query, in_context. rewrite !Forall_cons, Forall_nil.
  unfold cond_holds; simpl. tauto.
Qed.

Lemma key_query_keys_query self s k d :
  k ≠ SENTINEL →
  matches (key_query self s k) d → matches (keys_query self s) d.
Proof.
  intros Hk Hm. apply matches_keys_query.
  apply matches_key_query in Hm. unfold triple in Hm.
  injection Hm as Hs Hkey Hds. rewrite Hkey. split; [done|]. split; [|done].
  congruence.
Qed.

Lemma keys_query_key_query self s k d :
  matches (keys_query self s) d → field "key" d = BStr k →
  matches (key_query self s k) d.
Proof.
  intros (Hs & _ & Hds)%matches_keys_query Hk. apply matches_key_query.
  unfold triple, in_context in *. by rewrite Hs, Hk, Hds.
Qed.

Lemma subscript_all_present f (l : list Document) :
  Forall (λ d, is_Some (d !! f)) l →
  subscript_all f l = Ok ((field f) <$> l).
Proof.
  induction 1 as [|d l [v Hv] _ IH]; [done|].
  cbn [subscript_all]. unfold subscript at 1. rewrite Hv, IH.
  cbn. unfold field. by rewrite Hv.
Qed.

Lemma sublist_filter_mono {A} (P : A → Prop) `{!∀ x, Decision (P x)}
    (l1 l2 : list A) :
  l1 `sublist_of` l2 → filter P l1 `sublist_of` filter P l2.
Proof.
  induction 1 as [|x l1 l2 _ IH|x l1 l2 _ IH]; [done| |].
  - rewrite !filter_cons. case_decide; [by constructor | done].
  - rewrite filter_cons. case_decide; [by constructor | done].
Qed.

Lemma user_triples_app l1 l2 :
  user_triples (l1 ++ l2) = user_triples l1 ++ user_triples l2.
Proof. unfold user_triples. by rewrite fmap_app, filter_app. Qed.

Lemma user_triples_subset l t : t ∈ user_triples l → t ∈ triple <$> l.
Proof. unfold user_triples. by intros [_ ?]%list_elem_of_filter. Qed.

Lemma keyed_effect c e l :
  Forall keyed (documents c) → effect c e l → Forall keyed l.
Proof.
  intros Hall Heff.
  destruct Heff as [e l Hsub|self now s Hfresh|self now s k v ttl i d Hf
                   |self now s k v ttl Hf|self now s k ttl i d Hf].
  - by eapply Forall_sublist.
  - apply Forall_app. split; [done|]. apply Forall_singleton.
    by exists SENTINEL.
  - apply list_find_Some in Hf as (Hi & _ & _).
    rewrite Forall_lookup in Hall. destruct (Hall i d Hi) as [k' Hk'].
    apply Forall_insert; [by apply Forall_lookup|]. exists k'.
    by rewrite lookup_union_r.
  - apply Forall_app. split; [done|]. apply Forall_singleton. exists k.
    unfold inserted.
    generalize (if truthy ttl then KeyDocument.get_expiration now ttl
                else BNull).
    intros e. vm_compute. reflexivity.
  - apply list_find_Some in Hf as (Hi & _ & _).
    rewrite Forall_lookup in Hall. destruct (Hall i d Hi) as [k' Hk'].
    apply Forall_insert; [by apply Forall_lookup|]. exists k'.
    by rewrite lookup_insert_ne.
Qed.

Lemma user_unique_effect c e l :
  NoDup (user_triples (documents c)) → effect c e l →
  NoDup (user_triples l).
Proof.
  intros Hnd Heff.
  destruct Heff as [e l Hsub|self now s Hfresh|self now s k v ttl i d Hf
                   |self now s k v ttl Hf|self now s k ttl i d Hf].
  - eapply sublist_NoDup; [exact Hnd|].
    unfold user_triples. by apply sublist_filter_mono, fmap_sublist.
  - rewrite user_triples_app. unfold user_triples at 2.
    cbn [fmap list_fmap]. rewrite filter_cons_False, filter_nil, app_nil_r.
    + done.
    + rewrite triple_marker. intros Hn. by apply Hn.
  - apply list_find_Some in Hf as (Hi & _ & _). unfold user_triples.
    rewrite (triples_after_replace _ _ d); [done | done | apply triple_written].
  - rewrite user_triples_app. unfold user_triples at 2.
    cbn [fmap list_fmap]. rewrite filter_cons. case_decide.
    + rewrite filter_nil. apply NoDup_snoc_fresh; [done|].
      intros Hin%user_triples_subset. rewrite triple_inserted in Hin.
      revert Hin. by apply find_None_fresh.
    + by rewrite filter_nil, app_nil_r.
  - apply list_find_Some in Hf as (Hi & _ & _). unfold user_triples.
    rewrite (triples_after_replace _ _ d); [done | done | apply triple_expiry].
Qed.

(** The two facts about the documents that listing relies on, along any
    trace. *)
Lemma listing_invariant c tr :
  own_constraints c →
  Forall keyed (documents c) → NoDup (user_triples (documents c)) →
  Forall keyed (documents (run c tr))
  ∧ NoDup (user_triples (documents (run c tr))).
Proof.
  intros Hown Hk Hnd.
  apply (run_invariant
           (λ l, Forall keyed l ∧ NoDup (user_triples l)) (λ _, True) false);
    [|done|discriminate|by apply Forall_true|done].
  intros c0 e l _ _ _ [Hk0 Hnd0] Heff. split.
  - by eapply keyed_effect.
  - by eapply user_unique_effect.
Qed.

Lemma keys_triples_sublist self s (l : list Document) :
  triple <$> filter (matches (keys_query self s)) l
  `sublist_of` user_triples l.
Proof.
  unfold user_triples. induction l as [|d l IH]; [done|].
  cbn [fmap list_fmap]. rewrite !filter_cons.
  destruct (decide (matches (keys_query self s) d)) as [Hm|Hm].
  - rewrite decide_True.
    + cbn [fmap list_fmap]. by constructor.
    + apply matches_keys_query in Hm as (_ & Hk & _). unfold triple. simpl.
      congruence.
  - case_decide; [by constructor | done].
Qed.

Lemma key_of_triple (l : list Document) :
  (field "key") <$> l = (λ t, default BNull (t !! 1%nat)) <$> (triple <$> l).
Proof. induction l as [|d l IH]; [done|]. cbn [fmap list_fmap]. by f_equal. Qed.

Lemma listed_keys_NoDup self s (l : list Document) :
  NoDup (user_triples l) →
  NoDup ((field "key") <$> filter (matches (keys_query self s)) l).
Proof.
  intros Hnd. rewrite key_of_triple.
  apply NoDup_fmap_2_strong.
  - intros t1 t2 Ht1 Ht2 Heq.
    apply list_elem_of_fmap in Ht1 as (x & -> & Hx).
    apply list_elem_of_fmap in Ht2 as (y & -> & Hy).
    apply list_elem_of_filter in Hx as [Hx _].
    apply list_elem_of_filter in Hy as [Hy _].
    apply matches_keys_query in Hx as (Hxs & _ & Hxd).
    apply matches_keys_query in Hy as (Hys & _ & Hyd).
    unfold triple, in_context in *. simpl in Heq. congruence.
  - eapply sublist_NoDup; [exact Hnd | apply keys_triples_sublist].
Qed.

(** C8: along any trace from a collection without documents (more
    generally, one whose documents all carry a string key and whose
    non-marker triples are distinct), [list_keys] does not raise; what it
    returns are strings, exactly the keys other than the reserved one under
    which [get_key] finds an entry of that store and context, each once,
    and [count_keys] is their number. *)
Theorem list_keys_exact c tr self s :
  own_constraints c →
  Forall keyed (documents c) →
  NoDup (user_triples (documents c)) →
  ∃ ks,
    list_keys self s (run c tr) = Ok ks
    ∧ (∀ k : string,
         BStr k ∈ ks ↔ k ≠ SENTINEL ∧ is_Some (get_key self s k (run c tr)))
    ∧ (∀ v, v ∈ ks → ∃ k : string, v = BStr k)
    ∧ (BStr SENTINEL ∉ ks)
    ∧ NoDup ks
    ∧ count_keys self s (run c tr) = Z.of_nat (length ks).
Proof.
  intros Hown Hk Hnd.
  destruct (listing_invariant c tr Hown Hk Hnd) as [Hkeyed Huniq].
  set (c' := run c tr) in *.
  set (found := filter (matches (keys_query self s)) (documents c')).
  exists ((field "key") <$> found).
  assert (Forall keyed found) as Hfk.
  { eapply Forall_sublist; [apply sublist_filter | exact Hkeyed]. }
  split; [|split; [|split; [|split; [|split]]]].
  - unfold list_keys. cbv zeta. fold (keys_query self s).
    apply subscript_all_present.
    eapply Forall_impl; [exact Hfk|]. intros d [k Hd]. by exists (BStr k).
  - intros k. rewrite list_elem_of_fmap. split.
    + intros (d & Hkd & Hd). apply list_elem_of_filter in Hd as [Hm Hd].
      split.
      * intros ->. apply matches_keys_query in Hm as (_ & Hne & _).
        by apply Hne.
      * unfold get_key. cbv zeta. apply fmap_is_Some.
        unfold Coll.find_one. apply fmap_is_Some, find_Some_iff.
        exists d. split; [done|]. fold (key_query self s k).
        by apply keys_query_key_query.
    + intros [Hne Hsome]. unfold get_key in Hsome. cbv zeta in Hsome.
      apply fmap_is_Some in Hsome. unfold Coll.find_one in Hsome.
      apply fmap_is_Some, find_Some_iff in Hsome as (d & Hd & Hm).
      fold (key_query self s k) in Hm.
      exists d. split.
      * symmetry. by apply (matches_key_field self s k).
      * apply list_elem_of_filter. split; [|done].
        by apply (key_query_keys_query self s k).
  - intros v (d & -> & Hd)%list_elem_of_fmap.
    rewrite Forall_forall in Hfk. destruct (Hfk d Hd) as [k Hkd].
    exists k. unfold field. by rewrite Hkd.
  - intros (d & Hkd & Hd)%list_elem_of_fmap.
    apply list_elem_of_filter in Hd as [Hm _].
    apply matches_keys_query in Hm as (_ & Hne & _). by apply Hne.
  - by apply listed_keys_NoDup.
  - unfold count_keys, Coll.count_documents. fold (keys_query self s).
    by rewrite length_fmap.
Qed.

Lemma list_keys_exact_witness :
  own_constraints mongo_collection
  ∧ Forall keyed (documents mongo_collection)
  ∧ NoDup (user_triples (documents mongo_collection))
  ∧ ∃ ks,
      list_keys ds1 "A" (run mongo_collection busy_trace) = Ok ks
      ∧ (∀ k : string,
           BStr k ∈ ks ↔
           k ≠ SENTINEL
           ∧ is_Some (get_key ds1 "A" k (run mongo_collection busy_trace)))
      ∧ (∀ v, v ∈ ks → ∃ k : string, v = BStr k)
      ∧ (BStr SENTINEL ∉ ks)
      ∧ NoDup ks
      ∧ count_keys ds1 "A" (run mongo_collection busy_trace)
        = Z.of_nat (length ks).
Proof.
  assert (Forall keyed (documents mongo_collection)) as H1 by constructor.
  assert (NoDup (user_triples (documents mongo_collection))) as H2
    by constructor.
  split; [exact mongo_collection_own|]. split; [exact H1|]. split; [exact H2|].
  exact (list_keys_exact mongo_collection busy_trace ds1 "A"
           mongo_collection_own H1 H2).
Defined.

(** What the busy trace leaves in store "A" of [ds1]. *)
Example list_keys_busy :
  list_keys ds1 "A" (run mongo_collection busy_trace)
    = Ok [BStr "k1"; BStr "k3"]
  ∧ count_keys ds1 "A" (run mongo_collection busy_trace) = 2
  ∧ list_stores ds1 (run mongo_collection busy_trace) = Ok [BStr "A"].
Proof. vm_compute. repeat split; reflexivity. Qed.

(** ** Bulk deletion *)

Lemma find_filter_kept {A} (P Q : A → Prop) `{!∀ x, Decision (P x)}
    `{!∀ x, Decision (Q x)} (l : list A) :
  (∀ x, Q x → ¬ P x) →
  snd <$> list_find Q (filter (λ x, ¬ P x) l) = snd <$> list_find Q l.
Proof.
  intros Himp. induction l as [|x l IH]; [done|].
  destruct (decide (P x)) as [HP|HP].
  - rewrite filter_cons_False by (intros Hn; by apply Hn).
    cbn [list_find]. rewrite decide_False by (intros HQ; by apply (Himp x)).
    rewrite IH. by destruct (list_find Q l) as [[]|].
  - rewrite filter_cons_True by done. cbn [list_find].
    destruct (decide (Q x)); [done|].
    destruct (list_find Q (filter _ l)) as [[]|], (list_find Q l) as [[]|];
      cbn in *; congruence.
Qed.

Lemma find_filter_gone {A} (P Q : A → Prop) `{!∀ x, Decision (P x)}
    `{!∀ x, Decision (Q x)} (l : list A) :
  (∀ x, Q x → P x) → list_find Q (filter (λ x, ¬ P x) l) = None.
Proof.
  intros Himp. apply list_find_None, Forall_forall.
  intros x [Hx _]%list_elem_of_filter HQ. by apply Hx, Himp.
Qed.

Lemma filter_twice {A} (P : A → Prop) `{!∀ x, Decision (P x)} (l : list A) :
  filter P (filter P l) = filter P l.
Proof.
  induction l as [|x l IH]; [done|].
  destruct (decide (P x)).
  - rewrite !filter_cons_True by done. by rewrite IH.
  - by rewrite filter_cons_False by done.
Qed.

Lemma delete_many_gone q q' c :
  (∀ d, matches q' d → matches q d) →
  Coll.find_one q' (Coll.delete_many q c).2 = None
  ∧ Coll.find q' (Coll.delete_many q c).2 = []
  ∧ Coll.count_documents q' (Coll.delete_many q c).2 = 0.
Proof.
  intros Himp. unfold Coll.find_one, Coll.find, Coll.count_documents,
    Coll.delete_many. cbn [snd documents with_documents].
  rewrite find_filter_gone by done. rewrite filter_gone by done. done.
Qed.

Lemma delete_many_kept q q' c :
  (∀ d, matches q' d → ¬ matches q d) →
  Coll.find_one q' (Coll.delete_many q c).2 = Coll.find_one q' c
  ∧ Coll.find q' (Coll.delete_many q c).2 = Coll.find q' c
  ∧ Coll.count_documents q' (Coll.delete_many q c).2
    = Coll.count_documents q' c.
Proof.
  intros Himp. unfold Coll.find_one, Coll.find, Coll.count_documents,
    Coll.delete_many. cbn [snd documents with_documents].
  rewrite find_filter_kept by done. rewrite filter_kept by done. done.
Qed.

Lemma delete_many_again q c :
  Coll.delete_many q (Coll.delete_many q c).2 = (0, (Coll.delete_many q c).2).
Proof.
  unfold Coll.delete_many. cbn [snd documents with_documents indexes].
  rewrite filter_gone by done. rewrite filter_twice. reflexivity.
Qed.

Lemma matches_store_query self s d :
  matches (store_query self s) d ↔ in_store self s d.
Proof.
  unfold matches, store_query, in_store, in_context.
  rewrite !Forall_cons, Forall_nil. unfold cond_holds. cbn. tauto.
Qed.

Lemma key_query_in_store self s k d :
  matches (key_query self s k) d → matches (store_query self s) d.
Proof.
  unfold matches, key_query, store_query.
  rewrite !Forall_cons, !Forall_nil. tauto.
Qed.

Lemma keys_query_in_store self s d :
  matches (keys_query self s) d → matches (store_query self s) d.
Proof.
  unfold matches, keys_query, store_query.
  rewrite !Forall_cons, !Forall_nil. tauto.
Qed.

Lemma filter_matches_ext (q : Query) (P : Document → Prop)
    `{!∀ x, Decision (P x)} (l : list Document) :
  (∀ d, matches q d ↔ P d) →
  filter (matches q) l = filter P l
  ∧ filter (λ d, ¬ matches q d) l = filter (λ d, ¬ P d) l.
Proof.
  intros Hiff. split; apply list_filter_iff; intros d; by rewrite Hiff.
Qed.

(** X1: [delete_store] removes exactly the documents of the named store in
    the caller's context, marker and entries alike, and answers their
    number, zero included.  Afterwards the store is gone for that context:
    no marker, no entry under any key, nothing to list or count, and a
    second call answers zero and changes nothing. *)
Theorem delete_store_removes self s c :
  ∃ n c',
    delete_store self s c = (n, c')
    ∧ n = Z.of_nat (length (filter (in_store self s) (documents c)))
    ∧ documents c' = filter (λ d, ¬ in_store self s d) (documents c)
    ∧ indexes c' = indexes c
    ∧ has_store self s c' = false
    ∧ (∀ k, get_key self s k c' = None)
    ∧ list_keys self s c' = Ok []
    ∧ count_keys self s c' = 0
    ∧ delete_store self s c' = (0, c').
Proof.
  exists (delete_store self s c).1, (delete_store self s c).2.
  split; [by destruct (delete_store self s c)|].
  pose proof (filter_matches_ext (store_query self s) (in_store self s)
                (documents c) (matches_store_query self s)) as [Hf Hnf].
  unfold delete_store. fold (store_query self s).
  split; [unfold Coll.delete_many; cbn [fst]; by rewrite Hf|].
  split; [exact Hnf|]. split; [reflexivity|].
  split; [|split; [|split; [|split]]].
  - unfold has_store. cbv zeta. fold (key_query self s "__store__").
    destruct (delete_many_gone (store_query self s)
                (key_query self s "__store__") c
                (key_query_in_store self s "__store__")) as (-> & _ & _).
    apply bool_decide_eq_false_2. by intros [? ?].
  - intros k. unfold get_key. cbv zeta. fold (key_query self s k).
    destruct (delete_many_gone (store_query self s) (key_query self s k) c
                (key_query_in_store self s k)) as (-> & _ & _).
    reflexivity.
  - unfold list_keys. cbv zeta. fold (keys_query self s).
    destruct (delete_many_gone (store_query self s) (keys_query self s) c
                (keys_query_in_store self s)) as (_ & -> & _).
    reflexivity.
  - unfold count_keys. fold (keys_query self s).
    by destruct (delete_many_gone (store_query self s) (keys_query self s) c
                   (keys_query_in_store self s)) as (_ & _ & ->).
  - apply delete_many_again.
Qed.

Lemma in_store_other self s self' s' d :
  s' ≠ s ∨ _dataset_id self' ≠ _dataset_id self →
  in_store self' s' d → ¬ in_store self s d.
Proof.
  unfold in_store, in_context. intros Hne [Hs' Hc'] [Hs Hc].
  destruct Hne as [Hne|Hne]; apply Hne.
  - congruence.
  - apply oid_inj. congruence.
Qed.

(** X2: [delete_store] leaves every other store alone, be it another
    name in the same context or the same name in another context: its
    marker, each of its entries and its key listing and count read as
    before. *)
Theorem delete_store_frame self s self' s' c :
  s' ≠ s ∨ _dataset_id self' ≠ _dataset_id self →
  has_store self' s' (delete_store self s c).2 = has_store self' s' c
  ∧ (∀ k, get_key self' s' k (delete_store self s c).2
          = get_key self' s' k c)
  ∧ list_keys self' s' (delete_store self s c).2 = list_keys self' s' c
  ∧ count_keys self' s' (delete_store self s c).2 = count_keys self' s' c
  ∧ filter (in_store self' s') (documents (delete_store self s c).2)
    = filter (in_store self' s') (documents c).
Proof.
  intros Hne.
  assert (∀ q' : Query, (∀ d, matches q' d → matches (store_query self' s') d) →
            ∀ d, matches q' d → ¬ matches (store_query self s) d) as Hoth.
  { intros q' Hq d Hm. rewrite matches_store_query.
    apply (in_store_other self s self' s'); [done|].
    by apply matches_store_query, Hq. }
  unfold delete_store. fold (store_query self s).
  split; [|split; [|split; [|split]]].
  - unfold has_store. cbv zeta. fold (key_query self' s' "__store__").
    by destruct (delete_many_kept (store_query self s)
                (key_query self' s' "__store__") c
                (Hoth _ (key_query_in_store self' s' "__store__")))
      as (-> & _ & _).
  - intros k. unfold get_key. cbv zeta. fold (key_query self' s' k).
    by destruct (delete_many_kept (store_query self s) (key_query self' s' k) c
                (Hoth _ (key_query_in_store self' s' k))) as (-> & _ & _).
  - unfold list_keys. cbv zeta. fold (keys_query self' s').
    by destruct (delete_many_kept (store_query self s) (keys_query self' s') c
                (Hoth _ (keys_query_in_store self' s'))) as (_ & -> & _).
  - unfold count_keys. fold (keys_query self' s').
    by destruct (delete_many_kept (store_query self s) (keys_query self' s') c
                (Hoth _ (keys_query_in_store self' s'))) as (_ & _ & ->).
  - unfold Coll.delete_many. cbn [snd documents with_documents].
    destruct (filter_matches_ext (store_query self s) (in_store self s)
                (documents c) (matches_store_query self s)) as [_ ->].
    apply filter_kept. intros d. by apply in_store_other.
Qed.

Lemma delete_store_frame_witness :
  ("A" ≠ "A" ∨ _dataset_id ds2 ≠ _dataset_id ds1)
  ∧ has_store ds2 "A" (delete_store ds1 "A" (run mongo_collection busy_trace)).2
    = has_store ds2 "A" (run mongo_collection busy_trace)
  ∧ (∀ k, get_key ds2 "A" k
            (delete_store ds1 "A" (run mongo_collection busy_trace)).2
          = get_key ds2 "A" k (run mongo_collection busy_trace))
  ∧ list_keys ds2 "A" (delete_store ds1 "A" (run mongo_collection busy_trace)).2
    = list_keys ds2 "A" (run mongo_collection busy_trace)
  ∧ count_keys ds2 "A"
      (delete_store ds1 "A" (run mongo_collection busy_trace)).2
    = count_keys ds2 "A" (run mongo_collection busy_trace)
  ∧ filter (in_store ds2 "A")
      (documents (delete_store ds1 "A" (run mongo_collection busy_trace)).2)
    = filter (in_store ds2 "A") (documents (run mongo_collection busy_trace)).
Proof.
  assert ("A" ≠ "A" ∨ _dataset_id ds2 ≠ _dataset_id ds1) as Hne
    by (right; discriminate).
  split; [exact Hne|].
  exact (delete_store_frame ds1 "A" ds2 "A"
           (run mongo_collection busy_trace) Hne).
Defined.

(** ** What a context reads after [cleanup] *)

Lemma context_of_key_query self s k d :
  matches (key_query self s k) d →
  matches [("dataset_id", Is (oid (_dataset_id self)))] d.
Proof.
  unfold matches, key_query. rewrite !Forall_cons, !Forall_nil. tauto.
Qed.

Lemma context_of_keys_query self s d :
  matches (keys_query self s) d →
  matches [("dataset_id", Is (oid (_dataset_id self)))] d.
Proof.
  unfold matches, keys_query. rewrite !Forall_cons, !Forall_nil. tauto.
Qed.

Lemma context_of_stores_query self d :
  matches (stores_query self) d →
  matches [("dataset_id", Is (oid (_dataset_id self)))] d.
Proof.
  unfold matches, stores_query. rewrite !Forall_cons, !Forall_nil. tauto.
Qed.

(** X3: after [cleanup] its context is empty for every reader: no store
    exists, no key is found, the listings are empty, and a second
    [cleanup] answers zero and changes nothing. *)
Theorem cleanup_empties self c :
  (∀ s, has_store self s (cleanup self c).2 = false)
  ∧ (∀ s k, get_key self s k (cleanup self c).2 = None)
  ∧ (∀ s, list_keys self s (cleanup self c).2 = Ok [])
  ∧ list_stores self (cleanup self c).2 = Ok []
  ∧ cleanup self (cleanup self c).2 = (0, (cleanup self c).2).
Proof.
  unfold cleanup.
  set (q := [("dataset_id", Is (oid (_dataset_id self)))]).
  split; [|split; [|split; [|split]]].
  - intros s. unfold has_store. cbv zeta. fold (key_query self s "__store__").
    destruct (delete_many_gone q (key_query self s "__store__") c
                (context_of_key_query self s "__store__")) as (-> & _ & _).
    apply bool_decide_eq_false_2. by intros [? ?].
  - intros s k. unfold get_key. cbv zeta. fold (key_query self s k).
    by destruct (delete_many_gone q (key_query self s k) c
                   (context_of_key_query self s k)) as (-> & _ & _).
  - intros s. unfold list_keys. cbv zeta. fold (keys_query self s).
    by destruct (delete_many_gone q (keys_query self s) c
                   (context_of_keys_query self s)) as (_ & -> & _).
  - unfold list_stores. cbv zeta. fold (stores_query self).
    by destruct (delete_many_gone q (stores_query self) c
                   (context_of_stores_query self)) as (_ & -> & _).
  - apply delete_many_again.
Qed.

(** X4: [cleanup] in one context changes nothing another context reads:
    its stores, entries and listings are as before. *)
Theorem cleanup_reads_elsewhere C D c :
  _dataset_id C ≠ _dataset_id D →
  (∀ s, has_store D s (cleanup C c).2 = has_store D s c)
  ∧ (∀ s k, get_key D s k (cleanup C c).2 = get_key D s k c)
  ∧ (∀ s, list_keys D s (cleanup C c).2 = list_keys D s c)
  ∧ list_stores D (cleanup C c).2 = list_stores D c.
Proof.
  intros Hne. unfold cleanup.
  set (q := [("dataset_id", Is (oid (_dataset_id C)))]).
  assert (∀ q' : Query,
            (∀ d, matches q' d →
                  matches [("dataset_id", Is (oid (_dataset_id D)))] d) →
            ∀ d, matches q' d → ¬ matches q d) as Hoth.
  { intros q' Hq d Hm. unfold q. rewrite matches_context.
    apply (other_context C D); [done|]. by apply matches_context, Hq. }
  split; [|split; [|split]].
  - intros s. unfold has_store. cbv zeta. fold (key_query D s "__store__").
    by destruct (delete_many_kept q (key_query D s "__store__") c
                   (Hoth _ (context_of_key_query D s "__store__")))
      as (-> & _ & _).
  - intros s k. unfold get_key. cbv zeta. fold (key_query D s k).
    by destruct (delete_many_kept q (key_query D s k) c
                   (Hoth _ (context_of_key_query D s k))) as (-> & _ & _).
  - intros s. unfold list_keys. cbv zeta. fold (keys_query D s).
    by destruct (delete_many_kept q (keys_query D s) c
                   (Hoth _ (context_of_keys_query D s))) as (_ & -> & _).
  - unfold list_stores. cbv zeta. fold (stores_query D).
    by destruct (delete_many_kept q (stores_query D) c
                   (Hoth _ (context_of_stores_query D))) as (_ & -> & _).
Qed.

Lemma cleanup_reads_elsewhere_witness :
  _dataset_id ds1 ≠ _dataset_id global
  ∧ (∀ s, has_store global s (cleanup ds1 (run mongo_collection busy_trace)).2
          = has_store global s (run mongo_collection busy_trace))
  ∧ (∀ s k, get_key global s k (cleanup ds1 (run mongo_collection busy_trace)).2
            = get_key global s k (run mongo_collection busy_trace))
  ∧ (∀ s, list_keys global s (cleanup ds1 (run mongo_collection busy_trace)).2
          = list_keys global s (run mongo_collection busy_trace))
  ∧ list_stores global (cleanup ds1 (run mongo_collection busy_trace)).2
    = list_stores global (run mongo_collection busy_trace).
Proof.
  assert (_dataset_id ds1 ≠ _dataset_id global) as Hne by discriminate.
  split; [exact Hne|].
  exact (cleanup_reads_elsewhere ds1 global
           (run mongo_collection busy_trace) Hne).
Defined.

(** ** What a write to one key leaves alone *)

Lemma find_replace_other {A} (P : A → Prop) `{!∀ x, Decision (P x)}
    (l : list A) i x x' :
  l !! i = Some x → ¬ P x → ¬ P x' →
  list_find P (<[i := x']> l) = list_find P l.
Proof.
  revert i. induction l as [|y l IH]; intros [|i] Hi Hx Hx'; try done.
  - cbn in Hi. injection Hi as ->.
    change (<[0%nat := x']> (x :: l)) with (x' :: l). cbn [list_find].
    by rewrite !decide_False by done.
  - change (<[S i := x']> (y :: l)) with (y :: <[i := x']> l).
    cbn [list_find]. destruct (decide (P y)); [done|].
    by rewrite (IH i Hi Hx Hx').
Qed.

Lemma find_append_other {A} (P : A → Prop) `{!∀ x, Decision (P x)}
    (l : list A) x' :
  ¬ P x' → list_find P (l ++ [x']) = list_find P l.
Proof.
  intros Hx'. induction l as [|y l IH]; cbn [app list_find].
  - by rewrite decide_False by done.
  - destruct (decide (P y)); [done|]. by rewrite IH.
Qed.

Lemma find_delete_other {A} (P : A → Prop) `{!∀ x, Decision (P x)}
    (l : list A) i x :
  l !! i = Some x → ¬ P x →
  snd <$> list_find P (delete i l) = snd <$> list_find P l.
Proof.
  revert i. induction l as [|y l IH]; intros [|i] Hi Hx; try done.
  - cbn in Hi. injection Hi as ->.
    change (delete 0%nat (x :: l)) with l. cbn [list_find].
    rewrite decide_False by done.
    by destruct (list_find P l) as [[]|].
  - change (delete (S i) (y :: l)) with (y :: delete i l).
    cbn [list_find]. destruct (decide (P y)); [done|].
    specialize (IH i Hi Hx).
    destruct (list_find P (delete i l)) as [[]|], (list_find P l) as [[]|];
      cbn in *; congruence.
Qed.

Lemma filter_replace_other {A} (P : A → Prop) `{!∀ x, Decision (P x)}
    (l : list A) i x x' :
  l !! i = Some x → ¬ P x → ¬ P x' →
  filter P (<[i := x']> l) = filter P l.
Proof.
  revert i. induction l as [|y l IH]; intros [|i] Hi Hx Hx'; try done.
  - cbn in Hi. injection Hi as ->.
    change (<[0%nat := x']> (x :: l)) with (x' :: l).
    by rewrite !filter_cons_False by done.
  - change (<[S i := x']> (y :: l)) with (y :: <[i := x']> l).
    destruct (decide (P y)).
    + rewrite !filter_cons_True by done. f_equal. by apply (IH i).
    + rewrite !filter_cons_False by done. by apply (IH i).
Qed.

Lemma filter_replace_same {A} (P : A → Prop) `{!∀ x, Decision (P x)}
    (l : list A) i x x' :
  l !! i = Some x → P x → P x' →
  length (filter P (<[i := x']> l)) = length (filter P l).
Proof.
  revert i. induction l as [|y l IH]; intros [|i] Hi Hx Hx'; try done.
  - cbn in Hi. injection Hi as ->.
    change (<[0%nat := x']> (x :: l)) with (x' :: l).
    by rewrite !filter_cons_True by done.
  - change (<[S i := x']> (y :: l)) with (y :: <[i := x']> l).
    destruct (decide (P y)).
    + rewrite !filter_cons_True by done. cbn. f_equal. by apply (IH i).
    + rewrite !filter_cons_False by done. by apply (IH i).
Qed.

Lemma filter_append_other {A} (P : A → Prop) `{!∀ x, Decision (P x)}
    (l : list A) x' :
  ¬ P x' → filter P (l ++ [x']) = filter P l.
Proof.
  intros Hx'. rewrite filter_app, filter_cons_False by done.
  cbn. by rewrite app_nil_r.
Qed.

Lemma other_triple self s k self' s' k' d :
  s' ≠ s ∨ k' ≠ k ∨ _dataset_id self' ≠ _dataset_id self →
  triple d = [BStr s; BStr k; oid (_dataset_id self)] →
  ¬ matches (key_query self' s' k') d.
Proof.
  intros Hne Ht Hm. apply matches_key_query in Hm. rewrite Ht in Hm.
  injection Hm as Hs Hk Ho.
  destruct Hne as [Hne|[Hne|Hne]]; apply Hne; [done..|].
  symmetry. by apply oid_inj.
Qed.


Lemma matches_stores_query self d :
  matches (stores_query self) d ↔
  field "key" d = BStr SENTINEL ∧ in_context self d.
Proof.
  unfold matches, stores_query, in_context.
  rewrite !Forall_cons, Forall_nil. unfold cond_holds. cbn.
  unfold SENTINEL. tauto.
Qed.

Lemma triple_key d s k o : triple d = [s; k; o] → field "key" d = k.
Proof. unfold triple. by intros [= _ ? _]. Qed.




(** ** Counting keys across a write *)

Lemma other_store_keys self s (k : string) self' s' d :
  s' ≠ s ∨ _dataset_id self' ≠ _dataset_id self →
  triple d = [BStr s; BStr k; oid (_dataset_id self)] →
  ¬ matches (keys_query self' s') d.
Proof.
  intros Hne Ht (Hs & _ & Hc)%matches_keys_query.
  unfold in_context in Hc. unfold triple in Ht. injection Ht as Hs' _ Ho.
  destruct Hne as [Hne|Hne]; apply Hne; [congruence|].
  apply oid_inj. congruence.
Qed.

Lemma triple_keys_query self s (k : string) d :
  k ≠ SENTINEL →
  triple d = [BStr s; BStr k; oid (_dataset_id self)] →
  matches (keys_query self s) d.
Proof.
  intros Hk Ht. apply (key_query_keys_query self s k); [done|].
  by apply matches_key_query.
Qed.

(** X6: [set_key] under a key other than the reserved one adds one to
    [count_keys] of its store when the key was not there and leaves the
    count as it was when it overwrote an entry; the keys of every other
    store and of every other context are listed and counted as before. *)
Theorem set_key_counts self s k v ttl now c :
  own_constraints c →
  k ≠ SENTINEL →
  ∃ e c',
    set_key self s k v ttl now c = Ok (e, c')
    ∧ count_keys self s c'
      = count_keys self s c
        + match get_key self s k c with Some _ => 0 | None => 1 end
    ∧ (∀ self' s',
         s' ≠ s ∨ _dataset_id self' ≠ _dataset_id self →
         list_keys self' s' c' = list_keys self' s' c
         ∧ count_keys self' s' c' = count_keys self' s' c).
Proof.
  intros Hown Hk. rewrite set_key_unfold by done.
  unfold get_key, Coll.find_one. cbv zeta. fold (key_query self s k).
  destruct (list_find _ _) as [[i d]|] eqn:Hfind.
  - pose proof Hfind as Hf. apply list_find_Some in Hf as (Hi & Hm & _).
    apply matches_key_query in Hm.
    assert (triple (written v now ∪ d)
            = [BStr s; BStr k; oid (_dataset_id self)]) as Hm'
      by (by rewrite triple_written).
    eexists _, _. split; [reflexivity|]. split.
    + unfold count_keys, Coll.count_documents. fold (keys_query self s).
      cbn [documents with_documents fmap option_fmap option_map].
      rewrite (filter_replace_same _ _ i d)
        by (done || by apply (triple_keys_query self s k)).
      lia.
    + intros self' s' Hne.
      unfold list_keys, count_keys, Coll.find, Coll.count_documents.
      cbv zeta. fold (keys_query self' s').
      cbn [documents with_documents].
      by rewrite (filter_replace_other _ _ i d)
        by (done || by apply (other_store_keys self s k)).
  - pose proof (triple_inserted self s k v ttl now) as Hm'.
    eexists _, _. split; [reflexivity|]. split.
    + unfold count_keys, Coll.count_documents. fold (keys_query self s).
      cbn [documents with_documents fmap option_fmap option_map].
      rewrite filter_app, filter_cons_True
        by (by apply (triple_keys_query self s k)).
      rewrite length_app. cbn. lia.
    + intros self' s' Hne.
      unfold list_keys, count_keys, Coll.find, Coll.count_documents.
      cbv zeta. fold (keys_query self' s').
      cbn [documents with_documents].
      by rewrite filter_append_other
        by (by apply (other_store_keys self s k)).
Qed.

Lemma set_key_counts_witness :
  own_constraints with_k1_store
  ∧ "k2" ≠ SENTINEL
  ∧ ∃ e c',
      set_key ds1 "A" "k2" (BInt 5) None 20 with_k1_store = Ok (e, c')
      ∧ count_keys ds1 "A" c'
        = count_keys ds1 "A" with_k1_store
          + match get_key ds1 "A" "k2" with_k1_store with
            | Some _ => 0
            | None => 1
            end
      ∧ (∀ self' s',
           s' ≠ "A" ∨ _dataset_id self' ≠ _dataset_id ds1 →
           list_keys self' s' c' = list_keys self' s' with_k1_store
           ∧ count_keys self' s' c' = count_keys self' s' with_k1_store).
Proof.
  assert (own_constraints with_k1_store) as Hown.
  { apply (bool_decide_unpack _). vm_compute. exact I. }
  assert ("k2" ≠ SENTINEL) as Hk by discriminate.
  split; [exact Hown|]. split; [exact Hk|].
  exact (set_key_counts ds1 "A" "k2" (BInt 5) None 20 with_k1_store Hown Hk).
Defined.




(** ** Deleting a key *)

Lemma find_None_after_delete self s k c i d :
  unique_triples c →
  list_find (matches (key_query self s k)) (documents c) = Some (i, d) →
  list_find (matches (key_query self s k)) (delete i (documents c)) = None.
Proof.
  intros Hu Hfind. apply list_find_Some in Hfind as (Hi & Hm & _).
  apply matches_key_query in Hm.
  apply list_find_None, Forall_forall. intros x Hx Hmx.
  apply matches_key_query in Hmx.
  apply (NoDup_delete_gone (triple <$> documents c) i (triple d)).
  - exact Hu.
  - by rewrite list_lookup_fmap, Hi.
  - rewrite <- list_fmap_delete, Hm, <- Hmx. by apply list_elem_of_fmap_2.
Qed.

(** X8: on a collection whose triples are pairwise distinct,
    [delete_key] answers true exactly when [get_key] found an entry, and
    then removes that one document; afterwards [get_key] finds nothing, a
    second [delete_key] answers false and changes nothing, and every read
    under another store name, key or context gives what it gave before. *)
Theorem delete_key_twice self s k c :
  unique_triples c →
  ∃ b c',
    delete_key self s k c = (b, c')
    ∧ (b = true ↔ is_Some (get_key self s k c))
    ∧ get_key self s k c' = None
    ∧ delete_key self s k c' = (false, c')
    ∧ (∀ self' s' k',
         s' ≠ s ∨ k' ≠ k ∨ _dataset_id self' ≠ _dataset_id self →
         get_key self' s' k' c' = get_key self' s' k' c)
    ∧ length (documents c')
      = (length (documents c) - (if b then 1 else 0))%nat.
Proof.
  intros Hu. unfold delete_key at 1, Coll.delete_one.
  unfold get_key at 1, Coll.find_one. cbv zeta. fold (key_query self s k).
  destruct (list_find _ _) as [[i d]|] eqn:Hfind.
  - pose proof (find_None_after_delete self s k c i d Hu Hfind) as Hgone.
    pose proof Hfind as Hf. apply list_find_Some in Hf as (Hi & Hm & _).
    apply matches_key_query in Hm.
    exists true, (with_documents c (delete i (documents c))).
    split; [reflexivity|]. split; [|split; [|split; [|split]]].
    + split; [by eexists | done].
    + unfold get_key, Coll.find_one. cbv zeta. fold (key_query self s k).
      cbn [documents with_documents]. by rewrite Hgone.
    + unfold delete_key, Coll.delete_one. fold (key_query self s k).
      cbn [documents with_documents]. by rewrite Hgone.
    + intros self' s' k' Hne. unfold get_key, Coll.find_one. cbv zeta.
      fold (key_query self' s' k'). cbn [documents with_documents].
      by rewrite (find_delete_other _ _ i d)
        by (done || by apply (other_triple self s k)).
    + cbn [documents with_documents]. apply length_delete. by eexists.
  - exists false, c. split; [reflexivity|]. split; [|split; [|split; [|split]]].
    + split; [done | by intros [? ?]].
    + unfold get_key, Coll.find_one. cbv zeta. fold (key_query self s k).
      by rewrite Hfind.
    + unfold delete_key, Coll.delete_one. fold (key_query self s k).
      by rewrite Hfind.
    + done.
    + lia.
Qed.

Lemma delete_key_twice_witness :
  unique_triples with_k1_store
  ∧ ∃ b c',
      delete_key ds1 "A" "k1" with_k1_store = (b, c')
      ∧ (b = true ↔ is_Some (get_key ds1 "A" "k1" with_k1_store))
      ∧ get_key ds1 "A" "k1" c' = None
      ∧ delete_key ds1 "A" "k1" c' = (false, c')
      ∧ (∀ self' s' k',
           s' ≠ "A" ∨ k' ≠ "k1" ∨ _dataset_id self' ≠ _dataset_id ds1 →
           get_key self' s' k' c' = get_key self' s' k' with_k1_store)
      ∧ length (documents c')
        = (length (documents with_k1_store) - (if b then 1 else 0))%nat.
Proof.
  assert (unique_triples with_k1_store) as Hu.
  { apply (bool_decide_unpack _). vm_compute. exact I. }
  split; [exact Hu|].
  exact (delete_key_twice ds1 "A" "k1" with_k1_store Hu).
Defined.

(** ** Stores, per context and across contexts *)

Lemma matches_global_stores d :
  matches global_stores_query d ↔ field "key" d = BStr SENTINEL.
Proof.
  unfold matches, global_stores_query. rewrite Forall_cons, Forall_nil.
  unfold cond_holds, SENTINEL. cbn. tauto.
Qed.

Lemma triple_fields d a b o :
  triple d = [a; b; o] →
  field "store_name" d = a ∧ field "key" d = b ∧ field "dataset_id" d = o.
Proof. unfold triple. by intros [= ? ? ?]. Qed.

Lemma marker_is_store self s : matches (stores_query self) (marker self s).
Proof.
  apply matches_stores_query.
  destruct (triple_fields _ _ _ _ (triple_marker self s)) as (_ & Hk & Ho).
  by split.
Qed.

Lemma marker_elsewhere self self' s :
  _dataset_id self' ≠ _dataset_id self →
  ¬ matches (stores_query self') (marker self s).
Proof.
  intros Hne [_ Hc]%matches_stores_query.
  destruct (triple_fields _ _ _ _ (triple_marker self s)) as (_ & _ & Ho).
  unfold in_context in Hc. apply Hne, oid_inj. congruence.
Qed.

Lemma marker_no_key self self' s s' :
  ¬ matches (keys_query self' s') (marker self s).
Proof.
  intros (_ & Hk & _)%matches_keys_query. apply Hk.
  by apply (triple_key _ _ _ _ (triple_marker self s)).
Qed.

Lemma subscript_all_snoc f (l : list Document) d vs v :
  subscript_all f l = Ok vs → d !! f = Some v →
  subscript_all f (l ++ [d]) = Ok (vs ++ [v]).
Proof.
  revert vs. induction l as [|x l IH]; intros vs Hl Hd.
  - injection Hl as <-. cbn. unfold subscript. by rewrite Hd.
  - cbn [app subscript_all] in *.
    destruct (subscript f x) as [w|]; [|discriminate].
    cbn [mbind Result_bind] in *.
    destruct (subscript_all f l) as [ws|]; [|discriminate].
    injection Hl as <-. by rewrite (IH ws eq_refl Hd).
Qed.

(** X9: a [create_store] that succeeds adds exactly one store to its own
    context: [count_stores] there and [count_stores_global] grow by one
    and [list_stores] gains the name at its end, while the stores of
    every other context, the keys of every store and every entry under a
    key other than the reserved one read as before. *)
Theorem create_store_counts self s c m c' :
  create_store self s c = Ok (m, c') →
  count_stores self c' = count_stores self c + 1
  ∧ (∀ l, list_stores self c = Ok l → list_stores self c' = Ok (l ++ [BStr s]))
  ∧ (∀ self', count_stores_global self' c' = count_stores_global self' c + 1)
  ∧ (∀ self', _dataset_id self' ≠ _dataset_id self →
       count_stores self' c' = count_stores self' c
       ∧ list_stores self' c' = list_stores self' c)
  ∧ (∀ self' s',
       list_keys self' s' c' = list_keys self' s' c
       ∧ count_keys self' s' c' = count_keys self' s' c)
  ∧ (∀ self' s' k', k' ≠ SENTINEL →
       get_key self' s' k' c' = get_key self' s' k' c).
Proof.
  intros [_ Hdocs]%create_store_Ok.
  split; [|split; [|split; [|split; [|split]]]].
  - unfold count_stores, Coll.count_documents. fold (stores_query self).
    rewrite Hdocs, filter_app, filter_cons_True by apply marker_is_store.
    rewrite length_app. cbn. lia.
  - intros l Hl. unfold list_stores, Coll.find in *. cbv zeta in *.
    fold (stores_query self) in *.
    rewrite Hdocs, filter_app, filter_cons_True by apply marker_is_store.
    by apply subscript_all_snoc.
  - intros self'. unfold count_stores_global, Coll.count_documents.
    fold global_stores_query.
    rewrite Hdocs, filter_app, filter_cons_True.
    + rewrite length_app. cbn. lia.
    + apply matches_global_stores.
      by apply (triple_key _ _ _ _ (triple_marker self s)).
  - intros self' Hne.
    unfold count_stores, list_stores, Coll.find, Coll.count_documents.
    cbv zeta. fold (stores_query self').
    by rewrite Hdocs, filter_append_other by (by apply marker_elsewhere).
  - intros self' s'.
    unfold count_keys, list_keys, Coll.find, Coll.count_documents.
    cbv zeta. fold (keys_query self' s').
    by rewrite Hdocs, filter_append_other by apply marker_no_key.
  - intros self' s' k' Hk. unfold get_key, Coll.find_one. cbv zeta.
    fold (key_query self' s' k').
    rewrite Hdocs, find_append_other; [done|].
    apply (other_triple self s SENTINEL); [|apply triple_marker].
    right. by left.
Qed.

Lemma create_store_counts_witness :
  ∃ m c',
    create_store ds2 "B" with_k1_store = Ok (m, c')
    ∧ count_stores ds2 c' = count_stores ds2 with_k1_store + 1
    ∧ (∀ l, list_stores ds2 with_k1_store = Ok l →
            list_stores ds2 c' = Ok (l ++ [BStr "B"]))
    ∧ (∀ self', count_stores_global self' c'
                = count_stores_global self' with_k1_store + 1)
    ∧ (∀ self', _dataset_id self' ≠ _dataset_id ds2 →
         count_stores self' c' = count_stores self' with_k1_store
         ∧ list_stores self' c' = list_stores self' with_k1_store)
    ∧ (∀ self' s',
         list_keys self' s' c' = list_keys self' s' with_k1_store
         ∧ count_keys self' s' c' = count_keys self' s' with_k1_store)
    ∧ (∀ self' s' k', k' ≠ SENTINEL →
         get_key self' s' k' c' = get_key self' s' k' with_k1_store).
Proof.
  assert (create_store ds2 "B" with_k1_store
          = Ok (StoreDocument.mk "B" (Some 2%N),
                perform with_k1_store (mkEvent ds2 12 (CreateStore "B"))))
    as Hc by (vm_compute; reflexivity).
  exists (StoreDocument.mk "B" (Some 2%N)),
    (perform with_k1_store (mkEvent ds2 12 (CreateStore "B"))).
  split; [exact Hc|].
  exact (create_store_counts ds2 "B" with_k1_store _ _ Hc).
Defined.

Lemma filter_sublist_imp {A} (P Q : A → Prop) `{!∀ x, Decision (P x)}
    `{!∀ x, Decision (Q x)} (l : list A) :
  (∀ x, P x → Q x) → filter P l `sublist_of` filter Q l.
Proof.
  intros Himp. induction l as [|x l IH]; [done|].
  destruct (decide (P x)) as [HP|HP].
  - rewrite !filter_cons_True by auto. by apply sublist_skip.
  - rewrite (filter_cons_False P) by done.
    destruct (decide (Q x)).
    + rewrite filter_cons_True by done. by apply sublist_cons.
    + by rewrite filter_cons_False by done.
Qed.

Lemma subscript_all_sublist f (l1 l2 : list Document) g :
  l1 `sublist_of` l2 → subscript_all f l2 = Ok g →
  ∃ l, subscript_all f l1 = Ok l ∧ l `sublist_of` g.
Proof.
  intros Hsub. revert g.
  induction Hsub as [|x l1 l2 _ IH|x l1 l2 _ IH]; intros g Hg.
  - exists []. split; [done|]. apply sublist_nil_l.
  - cbn [subscript_all] in *.
    destruct (subscript f x) as [w|]; [|discriminate].
    cbn [mbind Result_bind] in *.
    destruct (subscript_all f l2) as [ws|]; [|discriminate].
    injection Hg as <-. destruct (IH ws eq_refl) as (l & -> & Hl).
    exists (w :: l). split; [done|]. by apply sublist_skip.
  - cbn [subscript_all] in Hg.
    destruct (subscript f x) as [w|]; [|discriminate].
    cbn [mbind Result_bind] in Hg.
    destruct (subscript_all f l2) as [ws|]; [|discriminate].
    injection Hg as <-. destruct (IH ws eq_refl) as (l & -> & Hl).
    exists l. split; [done|]. by apply sublist_cons.
Qed.

Lemma store_is_global self d :
  matches (stores_query self) d → matches global_stores_query d.
Proof.
  intros [Hk _]%matches_stores_query. by apply matches_global_stores.
Qed.

(** X10: what one context sees of the stores is part of what the global
    methods see: a store that [has_store] finds is found by
    [has_store_global], [count_stores] never exceeds
    [count_stores_global], and whenever [list_stores_global] returns,
    [list_stores] returns a sublist of its answer. *)
Theorem scoped_within_global self self' c :
  (∀ s, has_store self s c = true → has_store_global self' s c = true)
  ∧ count_stores self c ≤ count_stores_global self' c
  ∧ (∀ g, list_stores_global self' c = Ok g →
       ∃ l, list_stores self c = Ok l ∧ l `sublist_of` g).
Proof.
  pose proof (filter_sublist_imp (matches (stores_query self))
                (matches global_stores_query) (documents c)
                (store_is_global self)) as Hsub.
  split; [|split].
  - intros s Hs. apply has_store_true in Hs.
    apply list_elem_of_fmap in Hs as (d & Ht & Hd).
    apply has_store_global_true. exists d. split; [done|].
    symmetry in Ht. by destruct (triple_fields _ _ _ _ Ht) as (? & ? & _).
  - unfold count_stores, count_stores_global, Coll.count_documents.
    fold (stores_query self). fold global_stores_query.
    apply inj_le. by apply sublist_length.
  - intros g Hg. unfold list_stores, list_stores_global, Coll.find in *.
    cbv zeta in *. fold (stores_query self). fold global_stores_query in Hg.
    by apply (subscript_all_sublist _ _ _ g Hsub).
Qed.

Lemma filter_split_length {A} (P Q R : A → Prop) `{!∀ x, Decision (P x)}
    `{!∀ x, Decision (Q x)} `{!∀ x, Decision (R x)} (l : list A) :
  (∀ x, R x ↔ Q x ∧ P x) →
  length (filter Q l)
  = (length (filter R l) + length (filter Q (filter (λ x, ¬ P x) l)))%nat.
Proof.
  intros HR. induction l as [|x l IH]; [done|].
  destruct (decide (P x)) as [HP|HP], (decide (Q x)) as [HQ|HQ].
  - rewrite (filter_cons_True Q), (filter_cons_True R) by (done || by apply HR).
    rewrite (filter_cons_False (λ x, ¬ P x)) by (intros Hn; by apply Hn).
    cbn. by rewrite IH.
  - rewrite (filter_cons_False Q), (filter_cons_False R)
      by (done || rewrite HR; tauto).
    by rewrite (filter_cons_False (λ x, ¬ P x)) by (intros Hn; by apply Hn).
  - rewrite (filter_cons_True Q), (filter_cons_False R)
      by (done || rewrite HR; tauto).
    rewrite (filter_cons_True (λ x, ¬ P x)), (filter_cons_True Q) by done.
    cbn. rewrite IH. lia.
  - rewrite (filter_cons_False Q), (filter_cons_False R)
      by (done || rewrite HR; tauto).
    rewrite (filter_cons_True (λ x, ¬ P x)), (filter_cons_False Q) by done.
    exact IH.
Qed.

(** X11: [cleanup] takes from the global store count exactly the stores
    of its own context, and the number it answers is at least that. *)
Theorem cleanup_global_count C self' c :
  count_stores_global self' (cleanup C c).2
  = count_stores_global self' c - count_stores C c
  ∧ count_stores C c ≤ (cleanup C c).1.
Proof.
  unfold cleanup, count_stores_global, count_stores, Coll.count_documents,
    Coll.delete_many.
  cbn [fst snd documents with_documents].
  fold (stores_query C). fold global_stores_query.
  set (q := [("dataset_id", Is (oid (_dataset_id C)))]).
  split.
  - rewrite (filter_split_length (matches q) (matches global_stores_query)
               (matches (stores_query C)) (documents c)).
    + rewrite Nat2Z.inj_add, Z.add_simpl_l. reflexivity.
    + intros d. unfold q.
      by rewrite matches_stores_query, matches_global_stores, matches_context.
  - apply inj_le, sublist_length, filter_sublist_imp.
    apply context_of_stores_query.
Qed.

(** X12: a store that was deleted can be created again: after
    [delete_store], [create_store] under the same name succeeds whatever
    the collection held, and the new store has a marker and no keys. *)
Theorem create_after_delete self s c :
  own_constraints c →
  ∃ m c',
    create_store self s (delete_store self s c).2 = Ok (m, c')
    ∧ has_store self s c' = true
    ∧ count_keys self s c' = 0
    ∧ list_keys self s c' = Ok [].
Proof.
  intros Hown.
  set (c0 := (delete_store self s c).2).
  assert (own_constraints c0) as Hown0
    by (by apply (own_constraints_indexes c)).
  assert (has_store self s c0 = false) as Hno.
  { unfold c0, delete_store, has_store. cbv zeta.
    fold (store_query self s). fold (key_query self s "__store__").
    destruct (delete_many_gone (store_query self s)
                (key_query self s "__store__") c
                (key_query_in_store self s "__store__")) as (-> & _ & _).
    apply bool_decide_eq_false_2. by intros [? ?]. }
  assert (filter (matches (keys_query self s)) (documents c0) = []) as Hkeys.
  { unfold c0, delete_store. fold (store_query self s).
    by destruct (delete_many_gone (store_query self s) (keys_query self s) c
                   (keys_query_in_store self s)) as (_ & H & _). }
  rewrite create_store_unfold by done.
  rewrite decide_False by (rewrite Hno; by intros [_ ?]).
  eexists _, _. split; [reflexivity|]. split; [|split].
  - apply has_store_true. cbn [documents with_documents].
    rewrite fmap_app. apply elem_of_app. right.
    rewrite <- triple_marker. apply list_elem_of_here.
  - unfold count_keys, Coll.count_documents. fold (keys_query self s).
    cbn [documents with_documents].
    by rewrite filter_append_other, Hkeys by apply marker_no_key.
  - unfold list_keys, Coll.find. cbv zeta. fold (keys_query self s).
    cbn [documents with_documents].
    by rewrite filter_append_other, Hkeys by apply marker_no_key.
Qed.

Lemma create_after_delete_witness :
  own_constraints with_k1_store
  ∧ ∃ m c',
      create_store ds1 "A" (delete_store ds1 "A" with_k1_store).2 = Ok (m, c')
      ∧ has_store ds1 "A" c' = true
      ∧ count_keys ds1 "A" c' = 0
      ∧ list_keys ds1 "A" c' = Ok [].
Proof.
  assert (own_constraints with_k1_store) as Hown.
  { apply (bool_decide_unpack _). vm_compute. exact I. }
  split; [exact Hown|].
  exact (create_after_delete ds1 "A" with_k1_store Hown).
Defined.

(** ** Listing and counting stores *)

Lemma named_effect c e l :
  Forall named (documents c) → effect c e l → Forall named l.
Proof.
  intros Hall Heff.
  destruct Heff as [e l Hsub|self now s Hfresh|self now s k v ttl i d Hf
                   |self now s k v ttl Hf|self now s k ttl i d Hf].
  - by eapply Forall_sublist.
  - apply Forall_app. split; [done|]. apply Forall_singleton.
    by exists s.
  - apply list_find_Some in Hf as (Hi & _ & _).
    rewrite Forall_lookup in Hall. destruct (Hall i d Hi) as [n Hn].
    apply Forall_insert; [by apply Forall_lookup|]. exists n.
    by rewrite lookup_union_r.
  - apply Forall_app. split; [done|]. apply Forall_singleton. exists s.
    unfold inserted.
    generalize (if truthy ttl then KeyDocument.get_expiration now ttl
                else BNull).
    intros e. vm_compute. reflexivity.
  - apply list_find_Some in Hf as (Hi & _ & _).
    rewrite Forall_lookup in Hall. destruct (Hall i d Hi) as [n Hn].
    apply Forall_insert; [by apply Forall_lookup|]. exists n.
    by rewrite lookup_insert_ne.
Qed.

Lemma named_run c tr :
  own_constraints c → Forall named (documents c) →
  Forall named (documents (run c tr)).
Proof.
  intros Hown Hn.
  apply (run_invariant (Forall named) (λ _, True) false);
    [|done|discriminate|by apply Forall_true|done].
  intros c0 e l _ _ _ Hn0 Heff. by eapply named_effect.
Qed.

Lemma unique_run c tr :
  own_constraints c → enforces_unique c → unique_triples c →
  unique_triples (run c tr).
Proof.
  intros Hown Henf Hu. unfold unique_triples.
  apply (run_invariant (λ l, NoDup (triple <$> l)) (λ _, True) true);
    [|done|done|by apply Forall_true|done].
  intros c0 e l Hown0 Henf0 _ Hnd Heff.
  eapply unique_effect; [done | by apply Henf0 | done | done].
Qed.

Lemma name_of_triple (l : list Document) :
  (field "store_name") <$> l
  = (λ t, default BNull (t !! 0%nat)) <$> (triple <$> l).
Proof. induction l as [|d l IH]; [done|]. cbn [fmap list_fmap]. by f_equal. Qed.

Lemma listed_stores_NoDup self (l : list Document) :
  NoDup (triple <$> l) →
  NoDup ((field "store_name") <$> filter (matches (stores_query self)) l).
Proof.
  intros Hnd. rewrite name_of_triple.
  apply NoDup_fmap_2_strong.
  - intros t1 t2 Ht1 Ht2 Heq.
    apply list_elem_of_fmap in Ht1 as (x & -> & Hx).
    apply list_elem_of_fmap in Ht2 as (y & -> & Hy).
    apply list_elem_of_filter in Hx as [Hx _].
    apply list_elem_of_filter in Hy as [Hy _].
    apply matches_stores_query in Hx as (Hxk & Hxd).
    apply matches_stores_query in Hy as (Hyk & Hyd).
    unfold triple, in_context in *. simpl in Heq. congruence.
  - eapply sublist_NoDup; [exact Hnd|]. apply fmap_sublist, sublist_filter.
Qed.

Lemma store_triple self (n : string) d :
  matches (stores_query self) d ∧ field "store_name" d = BStr n
  ↔ triple d = [BStr n; BStr SENTINEL; oid (_dataset_id self)].
Proof.
  rewrite matches_stores_query. unfold in_context. split.
  - intros [[Hk Hc] Hn]. unfold triple. by rewrite Hn, Hk, Hc.
  - intros (Hn & Hk & Hc)%triple_fields. done.
Qed.

(** X13: along any trace from a collection set up by a Mongo repository
    (more generally, one that enforces the uniqueness constraint, whose
    triples are distinct and whose documents all carry a string store
    name), [list_stores] does not raise; it returns strings, exactly the
    names for which [has_store] answers true in that context, each once,
    and [count_stores] is their number. *)
Theorem list_stores_exact c tr self :
  own_constraints c →
  enforces_unique c →
  unique_triples c →
  Forall named (documents c) →
  ∃ ns,
    list_stores self (run c tr) = Ok ns
    ∧ (∀ n : string, BStr n ∈ ns ↔ has_store self n (run c tr) = true)
    ∧ (∀ v, v ∈ ns → ∃ n : string, v = BStr n)
    ∧ NoDup ns
    ∧ count_stores self (run c tr) = Z.of_nat (length ns).
Proof.
  intros Hown Henf Hu Hn.
  pose proof (named_run c tr Hown Hn) as Hnamed.
  pose proof (unique_run c tr Hown Henf Hu) as Huniq.
  set (c' := run c tr) in *.
  set (found := filter (matches (stores_query self)) (documents c')).
  exists ((field "store_name") <$> found).
  assert (Forall named found) as Hfn.
  { eapply Forall_sublist; [apply sublist_filter | exact Hnamed]. }
  split; [|split; [|split; [|split]]].
  - unfold list_stores. cbv zeta. fold (stores_query self).
    apply subscript_all_present.
    eapply Forall_impl; [exact Hfn|]. intros d [n Hd]. by exists (BStr n).
  - intros n. rewrite has_store_true, !list_elem_of_fmap. split.
    + intros (d & Hnd & Hd). apply list_elem_of_filter in Hd as [Hm Hd].
      exists d. split; [|done]. symmetry. by apply store_triple.
    + intros (d & Ht & Hd). symmetry in Ht.
      apply store_triple in Ht as [Hm Hnd].
      exists d. split; [done|]. by apply list_elem_of_filter.
  - intros v (d & -> & Hd)%list_elem_of_fmap.
    rewrite Forall_forall in Hfn. destruct (Hfn d Hd) as [n Hnd].
    exists n. unfold field. by rewrite Hnd.
  - by apply listed_stores_NoDup.
  - unfold count_stores, Coll.count_documents. fold (stores_query self).
    by rewrite length_fmap.
Qed.

Lemma list_stores_exact_witness :
  own_constraints mongo_collection
  ∧ enforces_unique mongo_collection
  ∧ unique_triples mongo_collection
  ∧ Forall named (documents mongo_collection)
  ∧ ∃ ns,
      list_stores ds1 (run mongo_collection busy_trace) = Ok ns
      ∧ (∀ n : string,
           BStr n ∈ ns ↔
           has_store ds1 n (run mongo_collection busy_trace) = true)
      ∧ (∀ v, v ∈ ns → ∃ n : string, v = BStr n)
      ∧ NoDup ns
      ∧ count_stores ds1 (run mongo_collection busy_trace)
        = Z.of_nat (length ns).
Proof.
  assert (unique_triples mongo_collection) as H1 by constructor.
  assert (Forall named (documents mongo_collection)) as H2 by constructor.
  split; [exact mongo_collection_own|].
  split; [exact mongo_collection_enforces|].
  split; [exact H1|]. split; [exact H2|].
  exact (list_stores_exact mongo_collection busy_trace ds1
           mongo_collection_own mongo_collection_enforces H1 H2).
Defined.

(** X14: along any trace from a collection whose documents all carry a
    string store name, [list_stores_global] does not raise; it returns
    strings, a name being listed exactly when [has_store_global] answers
    true for it, and [count_stores_global] is the length of the list. *)
Theorem list_stores_global_exact c tr self :
  own_constraints c →
  Forall named (documents c) →
  ∃ ns,
    list_stores_global self (run c tr) = Ok ns
    ∧ (∀ n : string,
         BStr n ∈ ns ↔ has_store_global self n (run c tr) = true)
    ∧ (∀ v, v ∈ ns → ∃ n : string, v = BStr n)
    ∧ count_stores_global self (run c tr) = Z.of_nat (length ns).
Proof.
  intros Hown Hn.
  pose proof (named_run c tr Hown Hn) as Hnamed.
  set (c' := run c tr) in *.
  set (found := filter (matches global_stores_query) (documents c')).
  exists ((field "store_name") <$> found).
  assert (Forall named found) as Hfn.
  { eapply Forall_sublist; [apply sublist_filter | exact Hnamed]. }
  split; [|split; [|split]].
  - unfold list_stores_global. cbv zeta. fold global_stores_query.
    apply subscript_all_present.
    eapply Forall_impl; [exact Hfn|]. intros d [n Hd]. by exists (BStr n).
  - intros n. rewrite has_store_global_true, list_elem_of_fmap. split.
    + intros (d & Hnd & Hd). apply list_elem_of_filter in Hd as [Hm Hd].
      exists d. split; [done|]. split; [done|].
      by apply matches_global_stores.
    + intros (d & Hd & Hnd & Hk). exists d. split; [done|].
      apply list_elem_of_filter. split; [|done].
      by apply matches_global_stores.
  - intros v (d & -> & Hd)%list_elem_of_fmap.
    rewrite Forall_forall in Hfn. destruct (Hfn d Hd) as [n Hnd].
    exists n. unfold field. by rewrite Hnd.
  - unfold count_stores_global, Coll.count_documents.
    fold global_stores_query. by rewrite length_fmap.
Qed.

Lemma list_stores_global_exact_witness :
  own_constraints mongo_collection
  ∧ Forall named (documents mongo_collection)
  ∧ ∃ ns,
      list_stores_global ds1 (run mongo_collection busy_trace) = Ok ns
      ∧ (∀ n : string,
           BStr n ∈ ns ↔
           has_store_global ds1 n (run mongo_collection busy_trace) = true)
      ∧ (∀ v, v ∈ ns → ∃ n : string, v = BStr n)
      ∧ count_stores_global ds1 (run mongo_collection busy_trace)
        = Z.of_nat (length ns).
Proof.
  assert (Forall named (documents mongo_collection)) as H2 by constructor.
  split; [exact mongo_collection_own|]. split; [exact H2|].
  exact (list_stores_global_exact mongo_collection busy_trace ds1
           mongo_collection_own H2).
Defined.

(** Across contexts a name can be listed more than once: the same store
    name created in two contexts. *)
Example list_stores_global_repeats :
  list_stores_global global
    (run mongo_collection
       [mkEvent ds1 10 (CreateStore "A"); mkEvent ds2 11 (CreateStore "A")])
  = Ok [BStr "A"; BStr "A"].
Proof. vm_compute. reflexivity. Qed.

(** ** Building the indexes *)

Lemma grown_names c c' name :
  grown c c' → name ∈ Coll.list_indexes c → name ∈ Coll.list_indexes c'.
Proof.
  intros [_ (more & Hi & _)]. unfold Coll.list_indexes.
  rewrite Hi, fmap_app. intros Hin. apply elem_of_app. by left.
Qed.

Lemma step_named (indices : list string) ix c c' :
  (if decide (ix_name ix ∉ indices) then Coll.create_index ix c else Ok c)
  = Ok c' →
  ix_name ix ∈ indices ∨ ix_name ix ∈ Coll.list_indexes c'.
Proof.
  destruct (decide _) as [Hn|Hn].
  - unfold Coll.create_index. case_decide; [discriminate|]. intros [= <-].
    right. unfold Coll.list_indexes. cbn [indexes]. rewrite fmap_app.
    apply elem_of_app. right. apply list_elem_of_here.
  - intros _. left. by apply dec_stable.
Qed.

Lemma create_missing_names indices names c c' :
  MongoExecutionStoreRepo.create_missing indices names c = Ok c' →
  ∀ name, name ∈ names → name ∈ indices ∨ name ∈ Coll.list_indexes c'.
Proof.
  revert c. induction names as [|a names IH]; intros c H name Hin.
  - by apply elem_of_nil in Hin.
  - simpl in H. apply bind_Ok in H as (c1 & H1 & H2).
    apply elem_of_cons in Hin as [->|Hin].
    + destruct (step_named indices (MongoExecutionStoreRepo.plain_index a)
                  c c1 H1) as [Hl|Hr]; [by left|right].
      eapply grown_names; [by eapply create_missing_grown | exact Hr].
    + by eapply IH.
Qed.

Lemma create_indexes_names c c' :
  MongoExecutionStoreRepo._create_indexes c = Ok c' →
  Forall (λ name, name ∈ Coll.list_indexes c') declared_names.
Proof.
  intros H. pose proof (create_indexes_grown c c' H) as Hg.
  unfold MongoExecutionStoreRepo._create_indexes in H. cbv zeta in H.
  apply bind_Ok in H as (c1 & H1 & H).
  apply bind_Ok in H as (c2 & H2 & H3).
  assert (grown c2 c') as Hg2 by (by eapply create_missing_grown).
  assert (grown c1 c2) as Hg1.
  { eapply create_if_missing_grown; [|exact H2]. intros _. reflexivity. }
  pose proof (create_missing_names _ _ _ _ H3) as Hrest.
  apply (step_named _ MongoExecutionStoreRepo.ttl_index) in H1.
  apply (step_named _ MongoExecutionStoreRepo.full_key_index) in H2.
  assert (∀ name, name ∈ Coll.list_indexes c ∨ name ∈ Coll.list_indexes c' →
                  name ∈ Coll.list_indexes c') as Hlift.
  { intros name [Hl|Hr]; [exact (grown_names c c' name Hg Hl) | done]. }
  unfold declared_names. repeat apply Forall_cons_2; [..|apply Forall_nil_2].
  - apply Hlift. destruct H1 as [Hl|Hr]; [by left|right].
    apply (grown_names c2 c' _ Hg2). exact (grown_names c1 c2 _ Hg1 Hr).
  - apply Hlift. destruct H2 as [Hl|Hr]; [by left|right].
    exact (grown_names c2 c' _ Hg2 Hr).
  - apply Hlift, Hrest, list_elem_of_here.
  - apply Hlift, Hrest, list_elem_of_further, list_elem_of_here.
  - apply Hlift, Hrest. do 2 apply list_elem_of_further.
    apply list_elem_of_here.
Qed.

Lemma create_indexes_present c :
  Forall (λ name, name ∈ Coll.list_indexes c) declared_names →
  MongoExecutionStoreRepo._create_indexes c = Ok c.
Proof.
  unfold declared_names. rewrite !Forall_cons.
  intros (H1 & H2 & H3 & H4 & H5 & _).
  unfold MongoExecutionStoreRepo._create_indexes. cbv zeta.
  rewrite decide_False by (intros Hn; by apply Hn).
  cbn [mbind Result_bind].
  rewrite decide_False by (intros Hn; by apply Hn).
  cbn [mbind Result_bind MongoExecutionStoreRepo.create_missing].
  rewrite decide_False by (intros Hn; by apply Hn).
  cbn [mbind Result_bind].
  rewrite decide_False by (intros Hn; by apply Hn).
  cbn [mbind Result_bind].
  rewrite decide_False by (intros Hn; by apply Hn).
  reflexivity.
Qed.

(** X15: when [_create_indexes] succeeds it has left the documents and
    the indexes it found as they were and only added indexes; every name
    it looks for is then present, so running it again, or constructing
    another Mongo repository on the collection, changes nothing and cannot
    fail. *)
Theorem create_indexes_settles c c' :
  MongoExecutionStoreRepo._create_indexes c = Ok c' →
  documents c' = documents c
  ∧ (∃ more, indexes c' = indexes c ++ more)
  ∧ Forall (λ name, name ∈ Coll.list_indexes c') declared_names
  ∧ MongoExecutionStoreRepo._create_indexes c' = Ok c'
  ∧ ∀ dataset_id,
      MongoExecutionStoreRepo.init dataset_id c' = Ok (mkRepo dataset_id, c').
Proof.
  intros H. pose proof (create_indexes_grown c c' H) as [Hd (more & Hi & _)].
  pose proof (create_indexes_names c c' H) as Hnames.
  pose proof (create_indexes_present c' Hnames) as Hagain.
  split; [done|]. split; [by exists more|]. split; [done|]. split; [done|].
  intros ds. unfold MongoExecutionStoreRepo.init. by rewrite Hagain.
Qed.

Lemma create_indexes_settles_witness :
  MongoExecutionStoreRepo._create_indexes fresh_collection
  = Ok mongo_collection
  ∧ documents mongo_collection = documents fresh_collection
  ∧ (∃ more, indexes mongo_collection = indexes fresh_collection ++ more)
  ∧ Forall (λ name, name ∈ Coll.list_indexes mongo_collection) declared_names
  ∧ MongoExecutionStoreRepo._create_indexes mongo_collection
    = Ok mongo_collection
  ∧ ∀ dataset_id,
      MongoExecutionStoreRepo.init dataset_id mongo_collection
      = Ok (mkRepo dataset_id, mongo_collection).
Proof.
  assert (MongoExecutionStoreRepo._create_indexes fresh_collection
          = Ok mongo_collection) as H by (vm_compute; reflexivity).
  split; [exact H|].
  exact (create_indexes_settles fresh_collection mongo_collection H).
Defined.






(** A base repository can leave the same marker twice; a Mongo repository
    can then no longer be constructed on that collection. *)
Example init_over_duplicates :
  count_stores ds1 twice_store_A = 2
  ∧ MongoExecutionStoreRepo.init (Some 1%N) twice_store_A
    = Raise DuplicateKeyError.
Proof. vm_compute. split; reflexivity. Qed.

(** ** Reachable states of a Mongo repository *)

Lemma run_own c tr : own_constraints c → own_constraints (run c tr).
Proof.
  revert c. induction tr as [|e tr IH]; intros c Hown; [done|].
  change (run c (e :: tr)) with (run (perform c e) tr).
  by apply IH, perform_own.
Qed.

Lemma run_enforces c tr :
  own_constraints c → enforces_unique c → enforces_unique (run c tr).
Proof.
  revert c. induction tr as [|e tr IH]; intros c Hown Henf; [done|].
  change (run c (e :: tr)) with (run (perform c e) tr).
  apply IH; [by apply perform_own | by apply perform_enforces].
Qed.

(** X17: behind a Mongo repository, whatever calls were made before,
    [create_store] is refused with a duplicate-key error exactly when the
    store already exists in the caller's context, and otherwise appends
    the marker and returns it. *)
Theorem create_store_reachable tr self s :
  create_store self s (run mongo_collection tr)
  = if has_store self s (run mongo_collection tr)
    then Raise DuplicateKeyError
    else Ok (StoreDocument.mk s (_dataset_id self),
             with_documents (run mongo_collection tr)
               (documents (run mongo_collection tr) ++ [marker self s])).
Proof.
  pose proof (run_own mongo_collection tr mongo_collection_own) as Hown.
  pose proof (run_enforces mongo_collection tr mongo_collection_own
                mongo_collection_enforces) as Henf.
  rewrite create_store_unfold by done.
  destruct (has_store self s (run mongo_collection tr)).
  - by rewrite decide_True.
  - by rewrite decide_False by (by intros [_ ?]).
Qed.



(** ** What a change of ttl leaves alone *)

Lemma find_replace_same {A} (P : A → Prop) `{!∀ x, Decision (P x)}
    (l : list A) i x x' :
  l !! i = Some x → (P x ↔ P x') →
  is_Some (list_find P (<[i := x']> l)) ↔ is_Some (list_find P l).
Proof.
  revert i. induction l as [|y l IH]; intros [|i] Hi Hx; try done.
  - cbn in Hi. injection Hi as ->.
    change (<[0%nat := x']> (x :: l)) with (x' :: l). cbn [list_find].
    destruct (decide (P x)) as [HP|HP].
    + rewrite decide_True by (by apply Hx). split; by eexists.
    + by rewrite decide_False by (by rewrite <- Hx).
  - change (<[S i := x']> (y :: l)) with (y :: <[i := x']> l).
    cbn [list_find]. destruct (decide (P y)); [done|].
    rewrite !fmap_is_Some. by apply IH.
Qed.

Lemma subscript_filter_replace f (P : Document → Prop)
    `{!∀ x, Decision (P x)} (l : list Document) i d d' :
  l !! i = Some d → (P d ↔ P d') → d' !! f = d !! f →
  subscript_all f (filter P (<[i := d']> l)) = subscript_all f (filter P l)
  ∧ length (filter P (<[i := d']> l)) = length (filter P l).
Proof.
  revert i. induction l as [|y l IH]; intros [|i] Hi HP Hf; try done.
  - cbn in Hi. injection Hi as ->.
    change (<[0%nat := d']> (d :: l)) with (d' :: l).
    destruct (decide (P d)) as [Hd|Hd].
    + rewrite !filter_cons_True by (done || by apply HP).
      cbn [subscript_all length]. unfold subscript. by rewrite Hf.
    + by rewrite !filter_cons_False by (done || by rewrite <- HP).
  - change (<[S i := d']> (y :: l)) with (y :: <[i := d']> l).
    destruct (IH i Hi HP Hf) as [IH1 IH2].
    destruct (decide (P y)).
    + rewrite !filter_cons_True by done.
      cbn [subscript_all length]. by rewrite IH1, IH2.
    + by rewrite !filter_cons_False by done.
Qed.

Lemma keys_query_expiry self s e d :
  matches (keys_query self s) d
  ↔ matches (keys_query self s) (<["expires_at" := e]> d).
Proof.
  rewrite !matches_keys_query. unfold in_context.
  by rewrite !(field_insert_ne "expires_at").
Qed.

Lemma stores_query_expiry self e d :
  matches (stores_query self) d
  ↔ matches (stores_query self) (<["expires_at" := e]> d).
Proof.
  rewrite !matches_stores_query. unfold in_context.
  by rewrite !(field_insert_ne "expires_at").
Qed.

Lemma key_query_expiry self s k e d :
  matches (key_query self s k) d
  ↔ matches (key_query self s k) (<["expires_at" := e]> d).
Proof. by rewrite !matches_key_query, triple_expiry. Qed.

(** X19: [update_ttl] changes no listing and no count: the stores and
    keys of every context are found, listed and counted as before, the
    collection holds as many documents as before, and every read under
    another store name, key or context returns what it returned. *)
Theorem update_ttl_reads self s k ttl now c :
  own_constraints c →
  ∃ b c',
    update_ttl self s k ttl now c = Ok (b, c')
    ∧ indexes c' = indexes c
    ∧ length (documents c') = length (documents c)
    ∧ (∀ self' s',
         has_store self' s' c' = has_store self' s' c
         ∧ list_keys self' s' c' = list_keys self' s' c
         ∧ count_keys self' s' c' = count_keys self' s' c)
    ∧ (∀ self',
         list_stores self' c' = list_stores self' c
         ∧ count_stores self' c' = count_stores self' c)
    ∧ (∀ self' s' k',
         (is_Some (get_key self' s' k' c') ↔ is_Some (get_key self' s' k' c))
         ∧ (s' ≠ s ∨ k' ≠ k ∨ _dataset_id self' ≠ _dataset_id self →
            get_key self' s' k' c' = get_key self' s' k' c)).
Proof.
  intros Hown. rewrite update_ttl_unfold by done.
  destruct (list_find _ _) as [[i d]|] eqn:Hfind.
  - pose proof Hfind as Hf. apply list_find_Some in Hf as (Hi & Hm & _).
    apply matches_key_query in Hm.
    set (e := KeyDocument.get_expiration now ttl).
    eexists _, _. split; [reflexivity|]. split; [reflexivity|].
    cbn [documents with_documents].
    split; [apply length_insert|]. split; [|split].
    + intros self' s'. split; [|split].
      * unfold has_store, Coll.find_one. cbv zeta.
        fold (key_query self' s' "__store__").
        cbn [documents with_documents]. apply bool_decide_ext.
        rewrite !fmap_is_Some.
        apply (find_replace_same _ _ i d); [done|]. apply key_query_expiry.
      * unfold list_keys, Coll.find. cbv zeta. fold (keys_query self' s').
        cbn [documents with_documents].
        apply (subscript_filter_replace "key" _ _ i d); [done| |].
        -- apply keys_query_expiry.
        -- by apply lookup_insert_ne.
      * unfold count_keys, Coll.count_documents. fold (keys_query self' s').
        cbn [documents with_documents]. f_equal.
        apply (subscript_filter_replace "key" _ _ i d); [done| |].
        -- apply keys_query_expiry.
        -- by apply lookup_insert_ne.
    + intros self'. split.
      * unfold list_stores, Coll.find. cbv zeta. fold (stores_query self').
        cbn [documents with_documents].
        apply (subscript_filter_replace "store_name" _ _ i d); [done| |].
        -- apply stores_query_expiry.
        -- by apply lookup_insert_ne.
      * unfold count_stores, Coll.count_documents. fold (stores_query self').
        cbn [documents with_documents]. f_equal.
        apply (subscript_filter_replace "store_name" _ _ i d); [done| |].
        -- apply stores_query_expiry.
        -- by apply lookup_insert_ne.
    + intros self' s' k'. split.
      * unfold get_key, Coll.find_one. cbv zeta. fold (key_query self' s' k').
        cbn [documents with_documents]. rewrite !fmap_is_Some.
        apply (find_replace_same _ _ i d); [done|]. apply key_query_expiry.
      * intros Hne. unfold get_key, Coll.find_one. cbv zeta.
        fold (key_query self' s' k'). cbn [documents with_documents].
        rewrite (find_replace_other _ _ i d); [done | done | |].
        -- by apply (other_triple self s k).
        -- apply (other_triple self s k); [done|]. by rewrite triple_expiry.
  - exists false, c. split; [reflexivity|]. done.
Qed.

Lemma update_ttl_reads_witness :
  own_constraints with_k1_store
  ∧ ∃ b c',
      update_ttl ds1 "A" "k1" (Some 60) 20 with_k1_store = Ok (b, c')
      ∧ indexes c' = indexes with_k1_store
      ∧ length (documents c') = length (documents with_k1_store)
      ∧ (∀ self' s',
           has_store self' s' c' = has_store self' s' with_k1_store
           ∧ list_keys self' s' c' = list_keys self' s' with_k1_store
           ∧ count_keys self' s' c' = count_keys self' s' with_k1_store)
      ∧ (∀ self',
           list_stores self' c' = list_stores self' with_k1_store
           ∧ count_stores self' c' = count_stores self' with_k1_store)
      ∧ (∀ self' s' k',
           (is_Some (get_key self' s' k' c')
            ↔ is_Some (get_key self' s' k' with_k1_store))
           ∧ (s' ≠ "A" ∨ k' ≠ "k1" ∨ _dataset_id self' ≠ _dataset_id ds1 →
              get_key self' s' k' c' = get_key self' s' k' with_k1_store)).
Proof.
  assert (own_constraints with_k1_store) as Hown.
  { apply (bool_decide_unpack _). vm_compute. exact I. }
  split; [exact Hown|].
  exact (update_ttl_reads ds1 "A" "k1" (Some 60) 20 with_k1_store Hown).
Defined.
